(** * gotrader: the accounting core of one instrument (instrument.go)

    A shallow embedding of [instrument.go] and proofs about it.

    Go's [float64] is IEEE 754 binary64, taken here as the Standard
    Library's [spec_float] at precision 53 and maximal exponent 1024, so
    the roundings, infinities and NaN of the program are those of the
    model.  Pointers ([*atomic.Float64], [*float64], [*Trade]) are
    addresses into an explicit store, because the program shares them:
    every trade observes the instrument's price and leverage cells, and a
    trade is completed after it has been put into the registry.

    [Position], [Trade], [sortedTrades], [Side] and [Tick] are declared in
    other files of the package.  What [instrument.go] needs of them is
    modelled from the specification; the valuation formulas of a position
    are a parameter ([Position.Valuation]).  Runs are sequential: the lock
    and the channel-returning accessors ([Trades],
    [TradesByAscendingOrder], [TradesByDescendingOrder]) are left out. *)

From Stdlib Require Import ZArith Lia Bool.
From Stdlib Require Import Floats.SpecFloat.
From stdpp Require Import gmap strings list.

(** ** float64 *)

Module F64.

Definition prec : Z := 53.
Definition emax : Z := 1024.

Definition float64 : Type := spec_float.

(** [x + y], [x - y], [math.Abs(x)], [x > y], [x <= y], [x == y]. *)
Definition add (x y : float64) : float64 := SFadd prec emax x y.
Definition sub (x y : float64) : float64 := SFsub prec emax x y.
Definition mul (x y : float64) : float64 := SFmul prec emax x y.
Definition div (x y : float64) : float64 := SFdiv prec emax x y.
Definition abs (x : float64) : float64 := SFabs x.
Definition gt (x y : float64) : bool :=
  match SFcompare x y with Some Gt => true | _ => false end.
Definition le (x y : float64) : bool := SFleb x y.
Definition eqb (x y : float64) : bool := SFeqb x y.

(** The literal [0.0], also the zero value of a [float64] field. *)
Definition zero : float64 := S754_zero false.
Definition pinf : float64 := S754_infinity false.

(** The float64 nearest to an integer (conversion [float64(n)]). *)
Definition of_Z (n : Z) : float64 := binary_normalize prec emax n 0 false.

Definition is_nan (x : float64) : bool :=
  match x with S754_nan => true | _ => false end.

(** A value that a binary64 word can hold. *)
Definition valid (x : float64) : bool := valid_binary prec emax x.

(** Finite (neither infinite nor NaN) and of non-negative sign class:
    [+0], [-0] or a positive finite number. *)
Definition finite_nonneg (x : float64) : bool :=
  match x with
  | S754_zero _ => true
  | S754_finite false _ _ => true
  | _ => false
  end.

End F64.

Import F64.

(** ** Store *)

(** Addresses of the store. *)
Abbreviation addr := positive (only parsing).

(** Modelled from the spec: the type [Side] with its constants [Long] and
    [Short], declared in another file of the package: "side (Long/Short -
    fixed at creation)". *)
Inductive Side : Type := Long | Short.

#[global] Instance Side_eq_dec : EqDecision Side.
Proof. solve_decision. Defined.

(** [type Hedge int] with [FullHedge], [NoHedge], [HalfHedge] numbered by
    [iota]: a Go [int] can hold other values than the three constants. *)
Definition Hedge : Type := Z.
Definition FullHedge : Hedge := 0%Z.
Definition NoHedge : Hedge := 1%Z.
Definition HalfHedge : Hedge := 2%Z.

Module Trade.

(** Modelled from the spec: the struct [Trade], declared in another file.
    The fields are those [instrument.go] passes to [newTrade] (the
    identifier, the instrument's name, the side, the [int32] units, the
    open time, the open price and the currency conversion), assigns
    ([leverage], [currentPrice]) or reads ([side]); a pointer field is
    [None] while it is [nil], and an instant is a number.  The figures a
    recompute caches in a trade (the fees charged so far, its unrealized
    profit) are not fields here: [instrument.go] never reads them, what a
    position makes of its trades is the parameter [Position.Valuation],
    and no statement below is about them. *)
Record t : Type := mk {
  id : string;
  instrument : string;
  side : Side;
  units : Z;
  openTime : Z;
  openPrice : float64;
  ccyConversion : option addr;
  leverage : option addr;
  currentPrice : option addr
}.

(** Modelled from the spec: [newTrade], declared in another file; it
    "constructs a Trade" from its arguments, and [openTrade] binds the two
    cells afterwards. *)
Definition newTrade (id instrument : string) (side : Side) (units : Z)
    (openTime : Z) (openPrice : float64) (ccy : option addr) : t :=
  mk id instrument side units openTime openPrice ccy None None.

(** [trade.leverage = l] *)
Definition set_leverage (l : addr) (tr : t) : t :=
  mk (id tr) (instrument tr) (side tr) (units tr) (openTime tr)
     (openPrice tr) (ccyConversion tr) (Some l) (currentPrice tr).

(** [trade.currentPrice = c] *)
Definition set_currentPrice (c : addr) (tr : t) : t :=
  mk (id tr) (instrument tr) (side tr) (units tr) (openTime tr)
     (openPrice tr) (ccyConversion tr) (leverage tr) (Some c).

End Trade.

(** The store: the float cells ([atomic.Float64] values and the escaped
    [leverage] parameter of [newInstrument]), the [Trade] objects, the
    next free address, and what [logrus.Warn] has been given. *)
Record World : Type := mkWorld {
  floats : gmap addr float64;
  tradeObjs : gmap addr Trade.t;
  nextAddr : addr;
  warnings : list string
}.

Definition emptyWorld : World := mkWorld ∅ ∅ 1%positive [].

(** [atomic.NewFloat64(v)], and a [float64] variable whose address is
    taken. *)
Definition allocFloat (v : float64) (w : World) : addr * World :=
  (nextAddr w,
   mkWorld (<[nextAddr w := v]> (floats w)) (tradeObjs w)
           (Pos.succ (nextAddr w)) (warnings w)).

Definition allocTrade (tr : Trade.t) (w : World) : addr * World :=
  (nextAddr w,
   mkWorld (floats w) (<[nextAddr w := tr]> (tradeObjs w))
           (Pos.succ (nextAddr w)) (warnings w)).

(** [c.Store(v)] *)
Definition storeFloat (c : addr) (v : float64) (w : World) : World :=
  mkWorld (<[c := v]> (floats w)) (tradeObjs w) (nextAddr w) (warnings w).

(** [c.Load()] *)
Definition loadFloat (c : addr) (w : World) : option float64 :=
  floats w !! c.

(** A field assignment through a [*Trade]. *)
Definition updTrade (a : addr) (f : Trade.t → Trade.t) (w : World) : World :=
  mkWorld (floats w) (alter f a (tradeObjs w)) (nextAddr w) (warnings w).

Definition warn (msg : string) (w : World) : World :=
  mkWorld (floats w) (tradeObjs w) (nextAddr w) (warnings w ++ [msg]).

(** ** The ordered trade index *)

Module SortedTrades.

(** Modelled from the spec: the type [sortedTrades] with
    [newSortedTrades], [Append], [Delete] and [Get], declared in another
    file: "an append-mostly, time-ordered sequence of trade identifiers";
    "append(id) [...] always at the tail"; "delete(id) - removes the
    identifier wherever it resides [...] must not disturb relative order
    of survivors"; "get(index) [...] out-of-range returns an
    empty/sentinel result". *)
Abbreviation t := (list string) (only parsing).

(** Modelled from the spec: [newSortedTrades], the empty sequence. *)
Definition newSortedTrades : t := [].

(** Modelled from the spec: [Append], "always at the tail". *)
Definition Append (id : string) (s : t) : t := s ++ [id].

(** Modelled from the spec: [Delete], which "removes the identifier
    wherever it resides" and "must not disturb relative order of
    survivors": the first occurrence goes, which on a sequence without
    repetition is every occurrence. *)
Fixpoint Delete (id : string) (s : t) : t :=
  match s with
  | [] => []
  | x :: s' => if decide (x = id) then s' else x :: Delete id s'
  end.

(** Modelled from the spec: [Get], "out-of-range returns an
    empty/sentinel result rather than failing the caller". *)
Definition Get (index : Z) (s : t) : string :=
  if (index <? 0)%Z then EmptyString
  else default EmptyString (s !! Z.to_nat index).

End SortedTrades.

(** ** Position *)

Module Position.

(** Modelled from the spec: the struct [Position], declared in another
    file.  [instrument.go] reads the four figures and passes a side and
    a [*float64] to [newPosition]; the working set of trades is the
    spec's "owns the subset of Trades on its side". *)
Record t : Type := mk {
  side : Side;
  leverage : addr;
  trades : list addr;
  unrealizedNetProfit : float64;
  unrealizedEffectiveProfit : float64;
  chargedFees : float64;
  marginUsed : float64
}.

(** The figures a position derives from its trades.  Their formulas
    (currency conversion, fees, settlement) belong to other files and to
    collaborators; [instrument.go] only relies on each method storing its
    results in the position it is called on. *)
Class Valuation : Type := {
  (** net profit, effective profit and charged fees of the open trades *)
  unrealized : World → t → float64 * float64 * float64;
  (** margin required by the open trades *)
  margin : World → t → float64;
  (** net profit, effective profit and charged fees once the trade at
      the given address has been settled *)
  settled : World → t → addr → float64 * float64 * float64
}.

(** Modelled from the spec: [newPosition], declared in another file; an
    empty side whose figures are zero. *)
Definition newPosition (s : Side) (lev : addr) : t :=
  mk s lev [] zero zero zero zero.

(** Modelled from the spec: [Position.openTrade], which "adds trade to
    the side's working set". *)
Definition openTrade (tr : addr) (p : t) : t :=
  mk (side p) (leverage p) (trades p ++ [tr]) (unrealizedNetProfit p)
     (unrealizedEffectiveProfit p) (chargedFees p) (marginUsed p).

(** Modelled from the spec: [Position.closeTrade], which "removes it and
    folds its final realized contribution into the side's
    charged-fees/P&L bookkeeping". *)
Definition closeTrade `{Valuation} (w : World) (tr : addr) (p : t) : t :=
  let '(net, eff, fees) := settled w p tr in
  mk (side p) (leverage p) (filter (λ a, a ≠ tr) (trades p))
     net eff fees (marginUsed p).

(** Modelled from the spec: [Position.calculateUnrealized], which stores
    the three unrealized figures of the side. *)
Definition calculateUnrealized `{Valuation} (w : World) (p : t) : t :=
  let '(net, eff, fees) := unrealized w p in
  mk (side p) (leverage p) (trades p) net eff fees (marginUsed p).

(** Modelled from the spec: [Position.calculateMarginUsed], which stores
    the margin of the side. *)
Definition calculateMarginUsed `{Valuation} (w : World) (p : t) : t :=
  mk (side p) (leverage p) (trades p) (unrealizedNetProfit p)
     (unrealizedEffectiveProfit p) (chargedFees p) (margin w p).

End Position.

(** ** Instrument *)

(** [type Instrument struct].  The two [*Position] are owned by the
    instrument and held by value; [trades] is the [hashmap.HashMap] from
    identifier to [*Trade]; [lock] guards nothing in a sequential run and
    is left out. *)
Record Instrument : Type := mkInstrument {
  name : string;
  baseCurrency : string;
  quoteCurrency : string;
  longPosition : Position.t;
  shortPosition : Position.t;
  trades : gmap string addr;
  tradesTimeOrder : SortedTrades.t;
  unrealizedNetProfit : float64;
  unrealizedEffectiveProfit : float64;
  marginUsed : float64;
  leverage : addr;
  chargedFees : float64;
  ask : addr;
  bid : addr;
  ccyConversion : option addr;
  hedgeType : Hedge
}.

Module Tick.

(** Modelled from the spec: the struct [Tick], declared in another file:
    "tick = {ask: float, bid: float}", with the field names [updatePrice]
    reads. *)
Record t : Type := mk { Ask : float64; Bid : float64 }.

End Tick.

(** [newInstrument].  The parameter [leverage] has its address taken, so
    it is a cell of its own, initialised with the argument; the
    instrument's [leverage] is a second cell made by
    [atomic.NewFloat64(leverage)].  [hedgeType], [ccyConversion] and the
    aggregate figures are not mentioned by the literal and take their zero
    values. *)
Definition newInstrument (name baseCurrency quoteCurrency : string)
    (leverage : float64) (w : World) : World * Instrument :=
  let '(param, w) := allocFloat leverage w in
  let '(lev, w) := allocFloat leverage w in
  let long := Position.newPosition Long param in
  let short := Position.newPosition Short param in
  let '(a, w) := allocFloat zero w in
  let '(b, w) := allocFloat zero w in
  (w, mkInstrument name baseCurrency quoteCurrency long short ∅
        SortedTrades.newSortedTrades zero zero zero lev zero a b None 0%Z).

Definition set_positions (long short : Position.t) (i : Instrument)
    : Instrument :=
  mkInstrument (name i) (baseCurrency i) (quoteCurrency i) long short
    (trades i) (tradesTimeOrder i) (unrealizedNetProfit i)
    (unrealizedEffectiveProfit i) (marginUsed i) (leverage i)
    (chargedFees i) (ask i) (bid i) (ccyConversion i) (hedgeType i).

Definition set_longPosition (p : Position.t) (i : Instrument) : Instrument :=
  set_positions p (shortPosition i) i.

Definition set_shortPosition (p : Position.t) (i : Instrument) : Instrument :=
  set_positions (longPosition i) p i.

Definition set_trades (m : gmap string addr) (i : Instrument) : Instrument :=
  mkInstrument (name i) (baseCurrency i) (quoteCurrency i) (longPosition i)
    (shortPosition i) m (tradesTimeOrder i) (unrealizedNetProfit i)
    (unrealizedEffectiveProfit i) (marginUsed i) (leverage i)
    (chargedFees i) (ask i) (bid i) (ccyConversion i) (hedgeType i).

Definition set_tradesTimeOrder (s : SortedTrades.t) (i : Instrument)
    : Instrument :=
  mkInstrument (name i) (baseCurrency i) (quoteCurrency i) (longPosition i)
    (shortPosition i) (trades i) s (unrealizedNetProfit i)
    (unrealizedEffectiveProfit i) (marginUsed i) (leverage i)
    (chargedFees i) (ask i) (bid i) (ccyConversion i) (hedgeType i).

Definition set_unrealized (net eff fees : float64) (i : Instrument)
    : Instrument :=
  mkInstrument (name i) (baseCurrency i) (quoteCurrency i) (longPosition i)
    (shortPosition i) (trades i) (tradesTimeOrder i) net eff (marginUsed i)
    (leverage i) fees (ask i) (bid i) (ccyConversion i) (hedgeType i).

Definition set_marginUsed (m : float64) (i : Instrument) : Instrument :=
  mkInstrument (name i) (baseCurrency i) (quoteCurrency i) (longPosition i)
    (shortPosition i) (trades i) (tradesTimeOrder i) (unrealizedNetProfit i)
    (unrealizedEffectiveProfit i) m (leverage i) (chargedFees i) (ask i)
    (bid i) (ccyConversion i) (hedgeType i).

(** The hedge policy is a configuration of the instrument; no function of
    [instrument.go] assigns it. *)
Definition set_hedgeType (h : Hedge) (i : Instrument) : Instrument :=
  mkInstrument (name i) (baseCurrency i) (quoteCurrency i) (longPosition i)
    (shortPosition i) (trades i) (tradesTimeOrder i) (unrealizedNetProfit i)
    (unrealizedEffectiveProfit i) (marginUsed i) (leverage i)
    (chargedFees i) (ask i) (bid i) (ccyConversion i) h.

(** [openTrade].  The [*Trade] is put into the registry and the ordered
    index first and completed afterwards, through the pointer. *)
Definition openTrade (id : string) (side : Side) (openTime : Z) (units : Z)
    (openPrice : float64) (w : World) (i : Instrument) : World * Instrument :=
  let '(trade, w) :=
    allocTrade (Trade.newTrade id (name i) side units openTime openPrice
                  (ccyConversion i)) w in
  let i := set_trades (<[id := trade]> (trades i)) i in
  let i := set_tradesTimeOrder (SortedTrades.Append id (tradesTimeOrder i)) i in
  let w := updTrade trade (Trade.set_leverage (leverage i)) w in
  if decide (side = Short) then
    let w := updTrade trade (Trade.set_currentPrice (ask i)) w in
    (w, set_shortPosition (Position.openTrade trade (shortPosition i)) i)
  else
    let w := updTrade trade (Trade.set_currentPrice (bid i)) w in
    (w, set_longPosition (Position.openTrade trade (longPosition i)) i).

Definition closeWarning (i : Instrument) : string :=
  name i +:+ ": trying to close unexisting trade".

Section Methods.

Context `{V : Position.Valuation}.

(** [closeTrade].  [None] is a run-time panic: reading [trade.side] through
    a pointer that refers to no [Trade]. *)
Definition closeTrade (id : string) (w : World) (i : Instrument)
    : option (World * Instrument) :=
  let i := set_tradesTimeOrder (SortedTrades.Delete id (tradesTimeOrder i)) i in
  match trades i !! id with
  | None => Some (warn (closeWarning i) w, i)
  | Some trade =>
      let i := set_trades (delete id (trades i)) i in
      match tradeObjs w !! trade with
      | None => None
      | Some tr =>
          if decide (Trade.side tr = Long) then
            Some (w, set_longPosition
                       (Position.closeTrade w trade (longPosition i)) i)
          else
            Some (w, set_shortPosition
                       (Position.closeTrade w trade (shortPosition i)) i)
      end
  end.

Definition calculateUnrealized (w : World) (i : Instrument)
    : World * Instrument :=
  let short := Position.calculateUnrealized w (shortPosition i) in
  let long := Position.calculateUnrealized w (longPosition i) in
  let i := set_positions long short i in
  (w, set_unrealized
        (add (Position.unrealizedNetProfit long)
             (Position.unrealizedNetProfit short))
        (add (Position.unrealizedEffectiveProfit long)
             (Position.unrealizedEffectiveProfit short))
        (add (Position.chargedFees long) (Position.chargedFees short)) i).

(** The [switch] of [calculateMarginUsed] on the two recomputed margins;
    it has no [default] case. *)
Definition combineMargin (h : Hedge) (short long old : float64) : float64 :=
  if decide (h = NoHedge) then add short long
  else if decide (h = FullHedge) then abs (sub short long)
  else if decide (h = HalfHedge) then
    (if gt short long then short else long)
  else old.

Definition calculateMarginUsed (w : World) (i : Instrument)
    : World * Instrument :=
  let short := Position.calculateMarginUsed w (shortPosition i) in
  let long := Position.calculateMarginUsed w (longPosition i) in
  let i := set_positions long short i in
  (w, set_marginUsed
        (combineMargin (hedgeType i) (Position.marginUsed short)
           (Position.marginUsed long) (marginUsed i)) i).

End Methods.

Definition updatePrice (tick : Tick.t) (w : World) (i : Instrument)
    : World * Instrument :=
  let w := storeFloat (ask i) (Tick.Ask tick) w in
  let w := storeFloat (bid i) (Tick.Bid tick) w in
  (w, i).

(** *** Accessible methods *)

Definition Name (i : Instrument) : string := name i.
Definition BaseCurrency (i : Instrument) : string := baseCurrency i.
Definition QuoteCurrency (i : Instrument) : string := quoteCurrency i.
Definition LongPosition (i : Instrument) : Position.t := longPosition i.
Definition ShortPosition (i : Instrument) : Position.t := shortPosition i.
Definition TradeByOrder (index : Z) (i : Instrument) : string :=
  SortedTrades.Get index (tradesTimeOrder i).
Definition Trade_ (id : string) (w : World) (i : Instrument)
    : option Trade.t :=
  match trades i !! id with
  | Some a => tradeObjs w !! a
  | None => None
  end.
Definition UnrealizedNetProfit (i : Instrument) : float64 :=
  unrealizedNetProfit i.
Definition UnrealizedEffectiveProfit (i : Instrument) : float64 :=
  unrealizedEffectiveProfit i.
Definition MarginUsed (i : Instrument) : float64 := marginUsed i.
Definition ChargedFees (i : Instrument) : float64 := chargedFees i.
Definition Ask (w : World) (i : Instrument) : option float64 :=
  loadFloat (ask i) w.
Definition Bid (w : World) (i : Instrument) : option float64 :=
  loadFloat (bid i) w.

(** ** A valuation to run the model on *)

Module SpecValuation.

(** One valuation, to evaluate the model on concrete runs: the formulas
    the spec gives for [Trade] and [Position], with the identity as
    currency conversion and no fee. *)

(** The float a cell pointer refers to; 0.0 when there is none. *)
Definition deref (w : World) (c : option addr) : float64 :=
  match c with
  | Some a => default zero (floats w !! a)
  | None => zero
  end.

(** Modelled from the spec: a trade's unrealized profit, declared in
    another file: "for a Long trade = (current bid - open price) x units
    [...] for Short, = (open price - current ask) x units". *)
Definition tradeUnrealized (w : World) (tr : Trade.t) : float64 :=
  let price := deref w (Trade.currentPrice tr) in
  match Trade.side tr with
  | Long => mul (sub price (Trade.openPrice tr)) (of_Z (Trade.units tr))
  | Short => mul (sub (Trade.openPrice tr) price) (of_Z (Trade.units tr))
  end.

(** Modelled from the spec: a trade's margin, declared in another file:
    "Margin required = |units| x open-or-current price / leverage". *)
Definition tradeMargin (w : World) (tr : Trade.t) : float64 :=
  div (mul (abs (of_Z (Trade.units tr))) (deref w (Trade.currentPrice tr)))
      (deref w (Trade.leverage tr)).

(** Modelled from the spec: the sums of a position over its trades,
    declared in another file: "sum each trade's required margin". *)
Definition sumOver (f : World → Trade.t → float64) (w : World)
    (l : list addr) : float64 :=
  foldl (λ acc a, match tradeObjs w !! a with
                  | Some tr => add acc (f w tr)
                  | None => acc
                  end) zero l.

(** Modelled from the spec: the figures of a position, declared in
    another file; the effective profit is the net profit plus the fees. *)
#[export] Instance valuation : Position.Valuation := {
  Position.unrealized w p :=
    let net := sumOver tradeUnrealized w (Position.trades p) in
    (net, add net zero, zero);
  Position.margin w p := sumOver tradeMargin w (Position.trades p);
  Position.settled w p a :=
    (Position.unrealizedNetProfit p, Position.unrealizedEffectiveProfit p,
     Position.chargedFees p)
}.

End SpecValuation.

(** ** The margin rules *)

Definition noHedgeRule (short long : float64) : float64 := add long short.
Definition fullHedgeRule (short long : float64) : float64 :=
  abs (sub short long).
Definition halfHedgeRule (short long : float64) : float64 :=
  if gt short long then short else long.


(** ** Runs *)

(** What a caller can do with an instrument: the five methods of
    [instrument.go], and a store into the instrument's leverage cell
    ([i.leverage.Store(v)], the way the shared leverage is changed). *)
Inductive Op : Type :=
| OpenTrade (id : string) (side : Side) (openTime units : Z)
    (openPrice : float64)
| CloseTrade (id : string)
| CalculateUnrealized
| CalculateMarginUsed
| UpdatePrice (tick : Tick.t)
| StoreLeverage (v : float64).

Abbreviation State := (World * Instrument)%type (only parsing).

Definition step `{V : Position.Valuation} (op : Op) (s : State)
    : option State :=
  match op with
  | OpenTrade id side t u p => Some (openTrade id side t u p s.1 s.2)
  | CloseTrade id => closeTrade id s.1 s.2
  | CalculateUnrealized => Some (calculateUnrealized s.1 s.2)
  | CalculateMarginUsed => Some (calculateMarginUsed s.1 s.2)
  | UpdatePrice tick => Some (updatePrice tick s.1 s.2)
  | StoreLeverage v => Some (storeFloat (leverage s.2) v s.1, s.2)
  end.

Fixpoint run `{V : Position.Valuation} (ops : list Op) (s : State)
    : option State :=
  match ops with
  | [] => Some s
  | op :: ops' =>
      match step op s with
      | Some s' => run ops' s'
      | None => None
      end
  end.

(** No [OpenTrade] of the run uses an identifier that is registered at
    that moment; [open] is the set of identifiers registered before the
    run. *)
Fixpoint opensFresh (open : gset string) (ops : list Op) : bool :=
  match ops with
  | [] => true
  | OpenTrade id _ _ _ _ :: ops' =>
      bool_decide (id ∉ open) && opensFresh ({[id]} ∪ open) ops'
  | CloseTrade id :: ops' => opensFresh (open ∖ {[id]}) ops'
  | _ :: ops' => opensFresh open ops'
  end.


(** The identifiers of the registry and of the ordered index agree, and
    a registered identifier occurs once in the ordered index. *)
Definition occurrences (id : string) (s : SortedTrades.t) : nat :=
  length (filter (λ x, x = id) s).

Definition registryMatchesIndex (i : Instrument) : Prop :=
  (∀ id, is_Some (trades i !! id) ↔ id ∈ tradesTimeOrder i) ∧
  (∀ id, is_Some (trades i !! id) → occurrences id (tradesTimeOrder i) = 1).

(** The same, with the ordered index free of repetition. *)
Definition indexed (i : Instrument) : Prop :=
  (∀ id, is_Some (trades i !! id) ↔ id ∈ tradesTimeOrder i) ∧
  NoDup (tradesTimeOrder i).

(** The price cells are two cells, and no leverage cell is one of them. *)
Definition cellsApart (i : Instrument) : Prop :=
  ask i ≠ bid i ∧
  leverage i ≠ ask i ∧ leverage i ≠ bid i ∧
  Position.leverage (longPosition i) ≠ ask i ∧
  Position.leverage (longPosition i) ≠ bid i ∧
  Position.leverage (shortPosition i) ≠ ask i ∧
  Position.leverage (shortPosition i) ≠ bid i.

(** Every registered trade is an object of the store, allocated before
    the next free address and bound to the instrument's leverage cell. *)
Definition tradesBound (s : State) : Prop :=
  ∀ id a, trades s.2 !! id = Some a →
    (a < nextAddr s.1)%positive ∧
    ∃ tr, tradeObjs s.1 !! a = Some tr ∧
          Trade.leverage tr = Some (leverage s.2).

(** ** A scenario *)

Module Scenario.

(** "instrument EUR/USD, leverage 50", one long and one short trade of
    1000 units opened at the same price, and a tick. *)
Definition price : float64 := S754_finite false 4953959590107546 (-52).
Definition fresh : State :=
  newInstrument "EUR/USD" "EUR" "USD" (of_Z 50) emptyWorld.
Definition opened : State :=
  let s := openTrade "A" Long 0 1000 price fresh.1 fresh.2 in
  let s := openTrade "B" Short 1 1000 price s.1 s.2 in
  updatePrice (Tick.mk price price) s.1 s.2.

End Scenario.

(** ** Position figures that round *)

Module Rounding.

(** Decimal figures as Go reads them: [0.1], [0.2], [0.3], [0.4], [0.5]
    and [0.7] (the float64 nearest to each), and the two sums that are not
    such a literal. *)
Definition d01 : float64 := S754_finite false 7205759403792794 (-56).
Definition d02 : float64 := S754_finite false 7205759403792794 (-55).
Definition d03 : float64 := S754_finite false 5404319552844595 (-54).
Definition d05 : float64 := S754_finite false 4503599627370496 (-53).

(** A long position with net profit 0.1 and fees 0.1, a short position
    with net profit 0.2 and fees 0.3; each effective profit is the float64
    sum of the two. *)
#[local] Instance valuation : Position.Valuation := {
  Position.unrealized w p :=
    match Position.side p with
    | Long => (d01, add d01 d01, d01)
    | Short => (d02, add d02 d03, d03)
    end;
  Position.margin w p := zero;
  Position.settled w p a :=
    (Position.unrealizedNetProfit p, Position.unrealizedEffectiveProfit p,
     Position.chargedFees p)
}.

End Rounding.

(** ** Rounding *)

Section RoundingDefs.

Local Open Scope Z_scope.

(** The state of the right shifter after [k] steps from [M]: the quotient
    by [2^k], and whether anything was shifted out. *)
Definition shifted (M k : Z) (mrs : shr_record) : Prop :=
  shr_m mrs = M / 2 ^ k /\
  (orb (shr_r mrs) (shr_s mrs) = false <-> M mod 2 ^ k = 0).

(** The value of a mantissa at an exponent, in units of [2^-1074], the
    smallest positive binary64. *)
Definition val (m : positive) (e : Z) : Z := Zpos m * 2 ^ (e + 1074).

(** The mantissa is the one binary64 uses for this exponent. *)
Definition canonical (m : positive) (e : Z) : Prop :=
  canonical_mantissa 53 1024 m e = true.

(** The second half of [binary_round_aux]: renormalising the rounded
    mantissa and detecting overflow. *)
Definition finish (m' E : Z) : spec_float :=
  let '(mrs, e) := shr_fexp 53 1024 m' E loc_Exact in
  match shr_m mrs with
  | Z0 => S754_zero false
  | Zpos m => if e <=? 971 then S754_finite false m e
              else S754_infinity false
  | Zneg _ => S754_nan
  end.

(** Zero, a positive finite number or [+Inf]. *)
Definition nonneg_class (x : float64) : bool :=
  match x with
  | S754_zero _ | S754_finite false _ _ | S754_infinity false => true
  | _ => false
  end.

End RoundingDefs.

(** Linear arithmetic with the powers of two taken as unknowns. *)
Ltac hide_pows :=
  change (2 ^ 52)%Z with 4503599627370496%Z in *;
  change (2 ^ 53)%Z with 9007199254740992%Z in *;
  repeat match goal with
  | |- context [Z.pow 2%Z ?k] =>
      let x := fresh "pw" in set (x := Z.pow 2%Z k) in *; clearbody x
  | H : context [Z.pow 2%Z ?k] |- _ =>
      let x := fresh "pw" in set (x := Z.pow 2%Z k) in *; clearbody x
  end.

Ltac pow_lia := hide_pows; lia.
Ltac pow_nia := hide_pows; nia.

(** ** More about runs *)

(** The position a trade of the given side is filed under, and the price
    cell it observes: [openTrade] takes the short position and the ask
    cell when the side is Short, the long position and the bid cell
    otherwise. *)
Definition positionOf (side : Side) (i : Instrument) : Position.t :=
  match side with Short => shortPosition i | Long => longPosition i end.

Definition priceCell (side : Side) (i : Instrument) : addr :=
  match side with Short => ask i | Long => bid i end.

(** The price a tick gives to a trade of the given side. *)
Definition tickPrice (side : Side) (tick : Tick.t) : float64 :=
  match side with Short => Tick.Ask tick | Long => Tick.Bid tick end.

(** Every registered trade is the object [openTrade] completed for its
    identifier: it carries the identifier and the instrument's name, and
    is bound to the instrument's leverage cell and to the price cell of
    its side. *)
Definition tradesWired (s : State) : Prop :=
  ∀ id a, trades s.2 !! id = Some a →
    (a < nextAddr s.1)%positive ∧
    ∃ tr, tradeObjs s.1 !! a = Some tr ∧
          Trade.id tr = id ∧
          Trade.instrument tr = name s.2 ∧
          Trade.leverage tr = Some (leverage s.2) ∧
          Trade.currentPrice tr = Some (priceCell (Trade.side tr) s.2).

(** Every trade of the working set of a position is an allocated trade of
    the position's side. *)
Definition sided (side : Side) (p : Position.t) (w : World) : Prop :=
  Position.side p = side ∧
  ∀ a, a ∈ Position.trades p →
    (a < nextAddr w)%positive ∧
    ∃ tr, tradeObjs w !! a = Some tr ∧ Trade.side tr = side.

Definition positionsSided (s : State) : Prop :=
  sided Long (longPosition s.2) s.1 ∧ sided Short (shortPosition s.2) s.1.

(** The trade at [a] is in the working set of the position of [side],
    and no identifier of the registry leads to it. *)
Definition orphaned (side : Side) (a : addr) (s : State) : Prop :=
  (a < nextAddr s.1)%positive ∧
  (∀ id, trades s.2 !! id ≠ Some a) ∧
  a ∈ Position.trades (positionOf side s.2).

(** The operations that recompute the unrealized figures, and those that
    recompute the margin. *)
Definition recomputesUnrealized (op : Op) : bool :=
  match op with CalculateUnrealized => true | _ => false end.

Definition recomputesMargin (op : Op) : bool :=
  match op with CalculateMarginUsed => true | _ => false end.

(** Every [CloseTrade] of the run names an identifier that is registered
    at that moment; [open] is the set of identifiers registered before
    the run. *)
Fixpoint closesKnown (open : gset string) (ops : list Op) : bool :=
  match ops with
  | [] => true
  | OpenTrade id _ _ _ _ :: ops' => closesKnown ({[id]} ∪ open) ops'
  | CloseTrade id :: ops' =>
      bool_decide (id ∈ open) && closesKnown (open ∖ {[id]}) ops'
  | _ :: ops' => closesKnown open ops'
  end.

(** The tick the price cells hold after a run: the last one, or the one
    they held before. *)
Fixpoint lastTick (before : Tick.t) (ops : list Op) : Tick.t :=
  match ops with
  | [] => before
  | UpdatePrice tick :: ops' => lastTick tick ops'
  | _ :: ops' => lastTick before ops'
  end.

(** Neither infinite nor NaN. *)
Definition is_finite (x : float64) : bool :=
  match x with
  | S754_zero _ | S754_finite _ _ _ => true
  | _ => false
  end.
(** ** Facts about float64 *)

Section Float64Facts.

Lemma add_comm (x y : float64) : add x y = add y x.
Proof.
  destruct x as [sx|sx| |sx mx ex], y as [sy|sy| |sy my ey];
    try destruct sx; try destruct sy; try reflexivity.
  all: unfold add; cbn [SFadd]; rewrite Z.min_comm;
    f_equal; apply Z.add_comm.
Qed.

Lemma compare_antisym (x y : float64) :
  SFcompare y x = CompOpp <$> SFcompare x y.
Proof.
  destruct x as [sx|sx| |sx mx ex], y as [sy|sy| |sy my ey];
    try destruct sx; try destruct sy; try reflexivity.
  all: cbn [SFcompare fmap option_fmap option_map]; f_equal;
    rewrite (Z.compare_antisym ex ey);
    destruct (ex ?= ey)%Z; cbn; try reflexivity;
    rewrite (Pos.compare_cont_antisym mx my Eq); cbn;
    try rewrite CompOpp_involutive; reflexivity.
Qed.

Lemma compare_refl (x : float64) :
  is_nan x = false → SFcompare x x = Some Eq.
Proof.
  destruct x as [s|s| |s m e]; try destruct s; cbn; try done.
  all: intros _; rewrite Z.compare_refl, Pos.compare_cont_refl; done.
Qed.

Lemma le_refl (x : float64) : is_nan x = false → le x x = true.
Proof. intros H. unfold le, SFleb. by rewrite compare_refl. Qed.

Lemma compare_is_Some (x y : float64) :
  is_nan x = false → is_nan y = false → is_Some (SFcompare x y).
Proof.
  destruct x as [sx|sx| |sx mx ex], y as [sy|sy| |sy my ey];
    cbn; try done; eauto.
Qed.

Lemma not_gt_le (x y : float64) :
  is_nan x = false → is_nan y = false → gt x y = false → le x y = true.
Proof.
  intros Hx Hy. destruct (compare_is_Some x y Hx Hy) as [c Hc].
  unfold gt, le, SFleb. rewrite Hc. by destruct c.
Qed.

Lemma gt_le (x y : float64) : gt x y = true → le y x = true.
Proof.
  unfold gt, le, SFleb. rewrite (compare_antisym x y).
  destruct (SFcompare x y) as [[]|]; done.
Qed.

End Float64Facts.

Lemma abs_binary_round (s : bool) (m : positive) (e : Z) :
  abs (binary_round prec emax s m e)
  = abs (binary_round prec emax (negb s) m e).
Proof.
  unfold binary_round, binary_round_aux.
  destruct (shl_align _ _ _) as [mz ez].
  destruct (shr_fexp _ _ _ _ _) as [mrs e'].
  destruct (shr_fexp _ _ _ _ _) as [mrs' e''].
  destruct (shr_m mrs'); try reflexivity.
  destruct (_ <=? _)%Z; reflexivity.
Qed.

Lemma abs_binary_normalize_opp (m e : Z) :
  abs (binary_normalize prec emax (- m) e false)
  = abs (binary_normalize prec emax m e false).
Proof.
  destruct m as [|p|p]; cbn [Z.opp binary_normalize]; try reflexivity.
  - apply (abs_binary_round true).
  - apply (abs_binary_round false).
Qed.

(** The absolute difference does not depend on the order of its
    operands. *)
Lemma abs_sub_sym (x y : float64) : abs (sub x y) = abs (sub y x).
Proof.
  destruct x as [sx|sx| |sx mx ex], y as [sy|sy| |sy my ey];
    try destruct sx; try destruct sy; try reflexivity.
  all: unfold sub; cbn [SFsub]; rewrite (Z.min_comm ey ex);
    rewrite <- abs_binary_normalize_opp; do 2 f_equal;
    cbn [cond_Zopp]; lia.
Qed.

Lemma combineMargin_NoHedge short long old :
  combineMargin NoHedge short long old = noHedgeRule short long.
Proof. unfold combineMargin, noHedgeRule. cbn. apply add_comm. Qed.

Lemma combineMargin_FullHedge short long old :
  combineMargin FullHedge short long old = fullHedgeRule short long.
Proof. reflexivity. Qed.

Lemma combineMargin_HalfHedge short long old :
  combineMargin HalfHedge short long old = halfHedgeRule short long.
Proof. reflexivity. Qed.

Lemma combineMargin_other h short long old :
  h ≠ FullHedge → h ≠ NoHedge → h ≠ HalfHedge →
  combineMargin h short long old = old.
Proof.
  intros H0 H1 H2. unfold combineMargin.
  repeat case_decide; congruence.
Qed.

(** The value chosen by the [if] of the HalfHedge case is one of the two
    margins and, when both are numbers, no smaller than either. *)
Lemma halfHedgeRule_max short long :
  (halfHedgeRule short long = short ∨ halfHedgeRule short long = long) ∧
  (is_nan short = false → is_nan long = false →
   le short (halfHedgeRule short long) = true ∧
   le long (halfHedgeRule short long) = true).
Proof.
  unfold halfHedgeRule. destruct (gt short long) eqn:Hgt.
  - split; [by left|]. intros Hs Hl. split; [by apply le_refl|by apply gt_le].
  - split; [by right|]. intros Hs Hl.
    split; [by apply not_gt_le|by apply le_refl].
Qed.

(** How the value chosen by the [if] of the HalfHedge case compares with
    the two margins, NaN included: every comparison with a NaN is false,
    so a NaN short margin loses the [>] and the long margin is chosen, and
    a NaN long margin is chosen whatever the short margin is. *)
Lemma halfHedgeRule_bounds short long :
  le short (halfHedgeRule short long)
  = negb (is_nan short) && negb (is_nan long) ∧
  le long (halfHedgeRule short long) = negb (is_nan long) ∧
  (if is_nan short then halfHedgeRule short long = long
   else if is_nan long then is_nan (halfHedgeRule short long) = true
   else le short (halfHedgeRule short long) = true ∧
        le long (halfHedgeRule short long) = true).
Proof.
  destruct (is_nan short) eqn:Hs.
  { destruct short; try discriminate Hs.
    destruct (is_nan long) eqn:Hl.
    - destruct long; try discriminate Hl. done.
    - repeat split; try done. unfold halfHedgeRule.
      change (gt S754_nan long) with false. cbn iota.
      by apply le_refl. }
  destruct (is_nan long) eqn:Hl.
  { destruct long; try discriminate Hl.
    destruct short; try discriminate Hs; done. }
  destruct (halfHedgeRule_max short long) as [_ H].
  destruct (H Hs Hl) as [H1 H2]. rewrite H1, H2. done.
Qed.

Section MarginClaims.

Context `{V : Position.Valuation}.

(** C1 (as amended).  [calculateMarginUsed] recomputes the margin of both
    positions and combines the two by the hedge policy of the instrument:
    under NoHedge the instrument's margin is long margin plus short margin,
    under FullHedge the absolute difference of the short and long margins
    (in either order), under HalfHedge the margin the comparison
    [short > long] selects: the short margin when it holds, the long margin
    otherwise.  That value is one of the two; it is at least the long
    margin unless the long margin is NaN, and at least the short margin
    unless one of the two is NaN: it is the maximum of the two exactly when
    neither is NaN.  A NaN short margin gives the long margin, a NaN long
    margin gives NaN. *)
Theorem calculateMarginUsed_policy (w : World) (i : Instrument) :
  let after h := (calculateMarginUsed w (set_hedgeType h i)).2 in
  let short := Position.marginUsed
                 (Position.calculateMarginUsed w (shortPosition i)) in
  let long := Position.marginUsed
                (Position.calculateMarginUsed w (longPosition i)) in
  (∀ h, shortPosition (after h)
        = Position.calculateMarginUsed w (shortPosition i) ∧
        longPosition (after h)
        = Position.calculateMarginUsed w (longPosition i)) ∧
  marginUsed (after NoHedge) = add long short ∧
  marginUsed (after FullHedge) = abs (sub short long) ∧
  marginUsed (after FullHedge) = abs (sub long short) ∧
  marginUsed (after HalfHedge) = (if gt short long then short else long) ∧
  (marginUsed (after HalfHedge) = short ∨
   marginUsed (after HalfHedge) = long) ∧
  le short (marginUsed (after HalfHedge))
  = negb (is_nan short) && negb (is_nan long) ∧
  le long (marginUsed (after HalfHedge)) = negb (is_nan long) ∧
  (if is_nan short then marginUsed (after HalfHedge) = long
   else if is_nan long then is_nan (marginUsed (after HalfHedge)) = true
   else le short (marginUsed (after HalfHedge)) = true ∧
        le long (marginUsed (after HalfHedge)) = true).
Proof.
  cbn zeta. split; [done|].
  unfold calculateMarginUsed; cbn [snd marginUsed set_marginUsed
    set_positions set_hedgeType hedgeType].
  rewrite combineMargin_NoHedge, combineMargin_FullHedge,
    combineMargin_HalfHedge.
  split; [done|]. split; [done|]. split; [apply abs_sub_sym|].
  split; [done|]. split; [apply halfHedgeRule_max|].
  destruct (halfHedgeRule_bounds
              (Position.marginUsed
                 (Position.calculateMarginUsed w (shortPosition i)))
              (Position.marginUsed
                 (Position.calculateMarginUsed w (longPosition i))))
    as (Hs & Hl & Hcases).
  done.
Qed.

(** C4.  With a hedge policy that is none of the three constants the
    [switch] selects no case: both positions have their margin recomputed,
    the instrument's [marginUsed] keeps its value, and the call returns
    normally without logging. *)
Theorem calculateMarginUsed_unknown_policy (w : World) (i : Instrument) :
  hedgeType i ≠ FullHedge → hedgeType i ≠ NoHedge →
  hedgeType i ≠ HalfHedge →
  calculateMarginUsed w i
  = (w, set_positions (Position.calculateMarginUsed w (longPosition i))
          (Position.calculateMarginUsed w (shortPosition i)) i) ∧
  marginUsed (calculateMarginUsed w i).2 = marginUsed i.
Proof.
  intros H0 H1 H2. unfold calculateMarginUsed.
  cbn [hedgeType set_positions marginUsed].
  rewrite combineMargin_other by done. split; [|done].
  by destruct i.
Qed.

End MarginClaims.

(** ** The store *)

Lemma loadFloat_store_eq c v w : loadFloat c (storeFloat c v w) = Some v.
Proof. apply lookup_insert_eq. Qed.

Lemma loadFloat_store_ne c c' v w :
  c ≠ c' → loadFloat c' (storeFloat c v w) = loadFloat c' w.
Proof. intros H. by apply lookup_insert_ne. Qed.

(** ** Price ticks *)

(** C8.  [updatePrice] stores the tick's ask into the ask cell and its bid
    into the bid cell and changes nothing else: the instrument (registry,
    ordered index, both positions, hedge policy and every aggregate
    figure) is as before, as are the trade objects, the log, every other
    float cell and in particular the leverage cells.  The price cells of
    an instrument are two cells apart from its leverage cells, as
    [newInstrument] makes them. *)
Theorem updatePrice_frame (tick : Tick.t) (w : World) (i : Instrument) :
  cellsApart i →
  let w' := (updatePrice tick w i).1 in
  (updatePrice tick w i).2 = i ∧
  loadFloat (ask i) w' = Some (Tick.Ask tick) ∧
  loadFloat (bid i) w' = Some (Tick.Bid tick) ∧
  (∀ c, c ≠ ask i → c ≠ bid i → loadFloat c w' = loadFloat c w) ∧
  loadFloat (leverage i) w' = loadFloat (leverage i) w ∧
  loadFloat (Position.leverage (longPosition i)) w'
  = loadFloat (Position.leverage (longPosition i)) w ∧
  loadFloat (Position.leverage (shortPosition i)) w'
  = loadFloat (Position.leverage (shortPosition i)) w ∧
  tradeObjs w' = tradeObjs w ∧
  nextAddr w' = nextAddr w ∧
  warnings w' = warnings w.
Proof.
  intros (Hab & Hla & Hlb & Hpa & Hpb & Hqa & Hqb).
  assert (Hframe : ∀ c, c ≠ ask i → c ≠ bid i →
            loadFloat c (updatePrice tick w i).1 = loadFloat c w).
  { intros c Ha Hb. unfold updatePrice; cbn [fst].
    rewrite loadFloat_store_ne by done. by rewrite loadFloat_store_ne. }
  cbn zeta. repeat split; try done; try (by apply Hframe).
  - unfold updatePrice; cbn [fst].
    rewrite loadFloat_store_ne by done. apply loadFloat_store_eq.
  - apply loadFloat_store_eq.
Qed.

(** ** Opening a trade *)

(** C5.  [openTrade] creates one [Trade] at a new address.  That trade
    carries the arguments of the call and the instrument's name, is bound
    to the instrument's leverage cell, and its live price is the ask cell
    when the side is Short and the bid cell when it is Long.  Its address
    is stored in the registry under the identifier, the identifier is
    appended to the ordered index, and the trade is given to the short
    position when the side is Short and to the long position otherwise,
    the other position being left as it was. *)
Theorem openTrade_effect (id : string) (side : Side) (openTime units : Z)
    (openPrice : float64) (w : World) (i : Instrument) :
  let w' := (openTrade id side openTime units openPrice w i).1 in
  let i' := (openTrade id side openTime units openPrice w i).2 in
  let a := nextAddr w in
  tradeObjs w' !! a
  = Some (Trade.mk id (name i) side units openTime openPrice
            (ccyConversion i) (Some (leverage i))
            (Some (match side with Short => ask i | Long => bid i end))) ∧
  trades i' = <[id := a]> (trades i) ∧
  trades i' !! id = Some a ∧
  tradesTimeOrder i' = tradesTimeOrder i ++ [id] ∧
  match side with
  | Short => shortPosition i' = Position.openTrade a (shortPosition i) ∧
             longPosition i' = longPosition i
  | Long => longPosition i' = Position.openTrade a (longPosition i) ∧
            shortPosition i' = shortPosition i
  end ∧
  floats w' = floats w ∧
  (∀ b, b ≠ a → tradeObjs w' !! b = tradeObjs w !! b).
Proof.
  cbn zeta. unfold openTrade, allocTrade.
  destruct side; [rewrite decide_False by done|rewrite decide_True by done];
    cbn -[alter insert].
  all: repeat split; try done; try apply lookup_insert_eq.
  all: try (rewrite !lookup_alter_eq, lookup_insert_eq; reflexivity).
  all: intros b Hb; rewrite !lookup_alter_ne by done;
    by apply lookup_insert_ne.
Qed.

(** ** What no step changes *)

Section Runs.

Context `{V : Position.Valuation}.

Lemma openTrade_world id side t u p w i :
  (openTrade id side t u p w i).1
  = mkWorld (floats w)
      (<[nextAddr w :=
           Trade.mk id (name i) side u t p (ccyConversion i)
             (Some (leverage i))
             (Some (match side with Short => ask i | Long => bid i end))]>
         (tradeObjs w))
      (Pos.succ (nextAddr w)) (warnings w).
Proof.
  unfold openTrade, allocTrade, updTrade.
  destruct side; [rewrite decide_False by done|rewrite decide_True by done];
    cbn -[alter insert]; f_equal; by rewrite !alter_insert_eq.
Qed.

Lemma openTrade_registry id side t u p w i :
  trades (openTrade id side t u p w i).2 = <[id := nextAddr w]> (trades i) ∧
  tradesTimeOrder (openTrade id side t u p w i).2 = tradesTimeOrder i ++ [id].
Proof. unfold openTrade, allocTrade. by case_decide. Qed.

Lemma closeTrade_cases id w i s' :
  closeTrade id w i = Some s' →
  (trades i !! id = None ∧
   s' = (warn (closeWarning i) w,
         set_tradesTimeOrder (SortedTrades.Delete id (tradesTimeOrder i)) i))
  ∨ (∃ a tr, trades i !! id = Some a ∧ tradeObjs w !! a = Some tr ∧
       s'.1 = w ∧
       trades s'.2 = delete id (trades i) ∧
       tradesTimeOrder s'.2 = SortedTrades.Delete id (tradesTimeOrder i) ∧
       ((Trade.side tr = Long ∧
         s'.2 = set_longPosition
                  (Position.closeTrade w a (longPosition i))
                  (set_trades (delete id (trades i))
                     (set_tradesTimeOrder
                        (SortedTrades.Delete id (tradesTimeOrder i)) i))) ∨
        (Trade.side tr = Short ∧
         s'.2 = set_shortPosition
                  (Position.closeTrade w a (shortPosition i))
                  (set_trades (delete id (trades i))
                     (set_tradesTimeOrder
                        (SortedTrades.Delete id (tradesTimeOrder i)) i))))).
Proof.
  unfold closeTrade. cbn [trades set_tradesTimeOrder].
  destruct (trades i !! id) as [a|] eqn:Ha.
  - destruct (tradeObjs w !! a) as [tr|] eqn:Htr; [|done].
    intros Hs. right. exists a, tr.
    case_decide as Hside; injection Hs as <-; cbn.
    + repeat split; try done. by left.
    + repeat split; try done. right. split; [|done].
      by destruct (Trade.side tr).
  - intros [= <-]. by left.
Qed.

Lemma Position_closeTrade_leverage w a p :
  Position.leverage (Position.closeTrade w a p) = Position.leverage p.
Proof.
  unfold Position.closeTrade. by destruct (Position.settled w p a) as [[??]?].
Qed.

Lemma Position_calculateUnrealized_leverage w p :
  Position.leverage (Position.calculateUnrealized w p) = Position.leverage p.
Proof.
  unfold Position.calculateUnrealized.
  by destruct (Position.unrealized w p) as [[??]?].
Qed.

(** No step replaces a cell of the instrument, its name or its hedge
    policy. *)
Lemma step_fields op s s' :
  step op s = Some s' →
  name s'.2 = name s.2 ∧
  leverage s'.2 = leverage s.2 ∧
  ask s'.2 = ask s.2 ∧
  bid s'.2 = bid s.2 ∧
  hedgeType s'.2 = hedgeType s.2 ∧
  Position.leverage (longPosition s'.2)
  = Position.leverage (longPosition s.2) ∧
  Position.leverage (shortPosition s'.2)
  = Position.leverage (shortPosition s.2).
Proof.
  destruct s as [w i], op; cbn [step fst snd].
  - intros [= <-]. unfold openTrade, allocTrade. by case_decide.
  - intros Hc. apply closeTrade_cases in Hc as [[_ ->]|Hc]; [done|].
    destruct Hc as (a & tr & _ & _ & _ & _ & _ & [[_ ->]|[_ ->]]); cbn;
      by rewrite Position_closeTrade_leverage.
  - intros [= <-]. unfold calculateUnrealized; cbn.
    by rewrite !Position_calculateUnrealized_leverage.
  - by intros [= <-].
  - by intros [= <-].
  - by intros [= <-].
Qed.


(** The registered trades stay bound through every step, and no step
    panics on a state where they are. *)
Lemma step_tradesBound op s :
  tradesBound s → ∃ s', step op s = Some s' ∧ tradesBound s'.
Proof.
  destruct s as [w i]. intros Hb. destruct op; cbn [step fst snd].
  - eexists; split; [done|]. intros id' a'.
    destruct (openTrade_registry id side openTime units openPrice w i)
      as [Hreg _].
    rewrite Hreg, openTrade_world.
    destruct (step_fields (OpenTrade id side openTime units openPrice)
                (w, i) _ eq_refl) as (_ & Hlev & _).
    cbn [fst snd] in *. rewrite Hlev.
    destruct (decide (id = id')) as [->|Hne].
    + rewrite lookup_insert_eq. intros [= <-]. split; [cbn; lia|].
      eexists. split; [apply lookup_insert_eq|done].
    + rewrite lookup_insert_ne by done. intros Ha'.
      destruct (Hb id' a' Ha') as (Hlt & tr & Htr & Hl). cbn in Hlt.
      split; [cbn; lia|]. exists tr. split; [|done].
      cbn. rewrite lookup_insert_ne by lia. done.
  - destruct (closeTrade id w i) as [s'|] eqn:Hc.
    + eexists; split; [done|].
      apply closeTrade_cases in Hc as [[_ ->]|Hc]; [exact Hb|].
      destruct Hc as (a & tr & _ & _ & Hw & Hreg & _ & Hi).
      intros id' a'. rewrite Hw, Hreg. intros Hdel.
      apply lookup_delete_Some in Hdel as [_ Ha'].
      assert (leverage s'.2 = leverage i) as ->; [|by apply (Hb id' a')].
      by destruct Hi as [[_ ->]|[_ ->]].
    + exfalso. unfold closeTrade in Hc. cbn [trades set_tradesTimeOrder] in Hc.
      destruct (trades i !! id) as [a|] eqn:Ha; [|done].
      destruct (Hb id a Ha) as (_ & tr & Htr & _). cbn [fst] in Htr.
      rewrite Htr in Hc. by case_decide.
  - eexists; split; [done|]. exact Hb.
  - eexists; split; [done|]. exact Hb.
  - eexists; split; [done|]. exact Hb.
  - eexists; split; [done|]. exact Hb.
Qed.

End Runs.

(** ** Closing a trade *)

Section CloseClaims.

Context `{V : Position.Valuation}.

Lemma Delete_not_elem (id : string) (s : SortedTrades.t) :
  id ∉ s → SortedTrades.Delete id s = s.
Proof.
  induction s as [|x s IH]; [done|]. intros Hn. cbn.
  apply not_elem_of_cons in Hn as [Hne Hn].
  rewrite decide_False by done. by rewrite IH.
Qed.

(** C3.  When the identifier is not a key of the registry, [closeTrade]
    returns normally after logging one warning; the registry, both
    positions, every aggregate figure and the store's cells and trades are
    as before, and the only field of the instrument it has touched is the
    ordered index, from which the identifier was deleted (no change when
    it is not there either).  After any [closeTrade] that returned, the
    identifier is not registered, so a second [closeTrade] of it is such a
    call: it logs, and leaves the registry, the positions and the
    aggregate figures as the first call left them. *)
Theorem closeTrade_unknown (id : string) (w : World) (i : Instrument) :
  (trades i !! id = None →
   ∃ w' i', closeTrade id w i = Some (w', i') ∧
     warnings w' = warnings w ++ [closeWarning i] ∧
     floats w' = floats w ∧ tradeObjs w' = tradeObjs w ∧
     i' = set_tradesTimeOrder
            (SortedTrades.Delete id (tradesTimeOrder i)) i ∧
     (id ∉ tradesTimeOrder i → i' = i) ∧
     trades i' = trades i ∧
     longPosition i' = longPosition i ∧
     shortPosition i' = shortPosition i ∧
     unrealizedNetProfit i' = unrealizedNetProfit i ∧
     unrealizedEffectiveProfit i' = unrealizedEffectiveProfit i ∧
     marginUsed i' = marginUsed i ∧
     chargedFees i' = chargedFees i) ∧
  (∀ w1 i1, closeTrade id w i = Some (w1, i1) →
   trades i1 !! id = None ∧
   ∃ w2 i2, closeTrade id w1 i1 = Some (w2, i2) ∧
     warnings w2 = warnings w1 ++ [closeWarning i1] ∧
     floats w2 = floats w1 ∧ tradeObjs w2 = tradeObjs w1 ∧
     trades i2 = trades i1 ∧
     longPosition i2 = longPosition i1 ∧
     shortPosition i2 = shortPosition i1 ∧
     unrealizedNetProfit i2 = unrealizedNetProfit i1 ∧
     unrealizedEffectiveProfit i2 = unrealizedEffectiveProfit i1 ∧
     marginUsed i2 = marginUsed i1 ∧
     chargedFees i2 = chargedFees i1).
Proof.
  assert (Habsent : ∀ w0 i0, trades i0 !! id = None →
            closeTrade id w0 i0
            = Some (warn (closeWarning i0) w0,
                    set_tradesTimeOrder
                      (SortedTrades.Delete id (tradesTimeOrder i0)) i0)).
  { intros w0 i0 H0. unfold closeTrade.
    cbn [trades set_tradesTimeOrder]. by rewrite H0. }
  split.
  - intros Hnone. eexists _, _. split; [by apply Habsent|].
    repeat split; try done.
    intros Hid. rewrite Delete_not_elem by done. by destruct i.
  - intros w1 i1 Hc.
    assert (Hgone : trades i1 !! id = None).
    { apply closeTrade_cases in Hc as [[Hn [= _ ->]]|Hc]; [done|].
      destruct Hc as (a & tr & _ & _ & _ & Hreg & _). cbn in Hreg.
      rewrite Hreg. apply lookup_delete_eq. }
    split; [done|]. eexists _, _. split; [by apply Habsent|].
    repeat split; done.
Qed.

End CloseClaims.

(** ** Unrealized figures *)

Section UnrealizedClaims.

Context `{V : Position.Valuation}.

(** After [calculateUnrealized] both positions are recomputed, and the
    instrument's net profit, effective profit and charged fees are each the
    float64 sum, long plus short, of that figure of the two positions; the
    store is not written. *)
Lemma calculateUnrealized_figures (w : World) (i : Instrument) :
  let i' := (calculateUnrealized w i).2 in
  let long := longPosition i' in
  let short := shortPosition i' in
  (calculateUnrealized w i).1 = w ∧
  long = Position.calculateUnrealized w (longPosition i) ∧
  short = Position.calculateUnrealized w (shortPosition i) ∧
  UnrealizedNetProfit i'
  = add (Position.unrealizedNetProfit long)
        (Position.unrealizedNetProfit short) ∧
  UnrealizedEffectiveProfit i'
  = add (Position.unrealizedEffectiveProfit long)
        (Position.unrealizedEffectiveProfit short) ∧
  ChargedFees i'
  = add (Position.chargedFees long) (Position.chargedFees short).
Proof. done. Qed.

End UnrealizedClaims.

(** ** Runs from a fresh instrument *)

Section RunClaims.

Context `{V : Position.Valuation}.

Lemma run_tradesBound ops s :
  tradesBound s → ∃ s', run ops s = Some s' ∧ tradesBound s'.
Proof.
  revert s. induction ops as [|op ops IH]; intros s Hb; [by exists s|].
  destruct (step_tradesBound op s Hb) as (s1 & Hs1 & Hb1).
  destruct (IH s1 Hb1) as (s' & Hrun & Hb').
  exists s'. cbn. by rewrite Hs1.
Qed.

Lemma run_fields ops s s' :
  run ops s = Some s' →
  name s'.2 = name s.2 ∧
  leverage s'.2 = leverage s.2 ∧
  ask s'.2 = ask s.2 ∧
  bid s'.2 = bid s.2 ∧
  hedgeType s'.2 = hedgeType s.2 ∧
  Position.leverage (longPosition s'.2)
  = Position.leverage (longPosition s.2) ∧
  Position.leverage (shortPosition s'.2)
  = Position.leverage (shortPosition s.2).
Proof.
  revert s. induction ops as [|op ops IH]; intros s; cbn.
  - by intros [= <-].
  - destruct (step op s) as [s1|] eqn:Hs1; [|done]. intros Hrun.
    destruct (step_fields _ _ _ Hs1) as (? & ? & ? & ? & ? & ? & ?).
    destruct (IH _ Hrun) as (? & ? & ? & ? & ? & ? & ?).
    repeat split; congruence.
Qed.




Lemma newInstrument_eq nm b q lev w :
  let n := nextAddr w in
  newInstrument nm b q lev w
  = (mkWorld
       (<[Pos.succ (Pos.succ (Pos.succ n)) := zero]>
          (<[Pos.succ (Pos.succ n) := zero]>
             (<[Pos.succ n := lev]> (<[n := lev]> (floats w)))))
       (tradeObjs w) (Pos.succ (Pos.succ (Pos.succ (Pos.succ n))))
       (warnings w),
     mkInstrument nm b q (Position.newPosition Long n)
       (Position.newPosition Short n) ∅ SortedTrades.newSortedTrades
       zero zero zero (Pos.succ n) zero (Pos.succ (Pos.succ n))
       (Pos.succ (Pos.succ (Pos.succ n))) None 0%Z).
Proof. reflexivity. Qed.

Lemma newInstrument_cellsApart nm b q lev w :
  cellsApart (newInstrument nm b q lev w).2.
Proof. rewrite newInstrument_eq. cbn. unfold cellsApart; cbn. lia. Qed.

Lemma newInstrument_tradesBound nm b q lev w :
  tradesBound (newInstrument nm b q lev w).
Proof. rewrite newInstrument_eq. intros id a. cbn. by rewrite lookup_empty. Qed.

Lemma newInstrument_loads nm b q lev w :
  let s := newInstrument nm b q lev w in
  loadFloat (Position.leverage (longPosition s.2)) s.1 = Some lev ∧
  loadFloat (leverage s.2) s.1 = Some lev ∧
  loadFloat (ask s.2) s.1 = Some zero ∧
  loadFloat (bid s.2) s.1 = Some zero.
Proof.
  rewrite newInstrument_eq. cbn -[insert]. unfold loadFloat; cbn -[insert].
  repeat split.
  - rewrite !lookup_insert_ne by lia. apply lookup_insert_eq.
  - rewrite !lookup_insert_ne by lia. apply lookup_insert_eq.
  - rewrite !lookup_insert_ne by lia. apply lookup_insert_eq.
  - apply lookup_insert_eq.
Qed.

(** The cells of an instrument that [newInstrument] made stay apart
    through every run. *)
Lemma run_cellsApart nm b q lev w ops s :
  run ops (newInstrument nm b q lev w) = Some s → cellsApart s.2.
Proof.
  intros Hrun.
  destruct (run_fields _ _ _ Hrun) as (_ & Hl & Ha & Hb & _ & Hpl & Hps).
  pose proof (newInstrument_cellsApart nm b q lev w) as Hc.
  unfold cellsApart in *. by rewrite Hl, Ha, Hb, Hpl, Hps.
Qed.


(** C10.  A fresh instrument has hedge policy FullHedge, the zero value
    of [Hedge], and ask and bid cells holding 0.0.  No operation assigns
    the policy, so after every run [calculateMarginUsed] sets the
    instrument's margin to the absolute difference of the recomputed short
    and long margins. *)
Theorem newInstrument_FullHedge (nm b q : string) (lev : float64)
    (w : World) (ops : list Op) :
  let s0 := newInstrument nm b q lev w in
  hedgeType s0.2 = FullHedge ∧
  Ask s0.1 s0.2 = Some zero ∧
  Bid s0.1 s0.2 = Some zero ∧
  marginUsed (calculateMarginUsed s0.1 s0.2).2
  = abs (sub (Position.margin s0.1 (shortPosition s0.2))
             (Position.margin s0.1 (longPosition s0.2))) ∧
  ∃ s, run ops s0 = Some s ∧
    hedgeType s.2 = FullHedge ∧
    marginUsed (calculateMarginUsed s.1 s.2).2
    = abs (sub (Position.margin s.1 (shortPosition s.2))
               (Position.margin s.1 (longPosition s.2))).
Proof.
  cbn zeta.
  destruct (run_tradesBound ops _ (newInstrument_tradesBound nm b q lev w))
    as (s & Hrun & Hb).
  destruct (run_fields _ _ _ Hrun) as (_ & _ & _ & _ & Hh & _).
  destruct (newInstrument_loads nm b q lev w) as (_ & _ & Ha0 & Hb0).
  split; [done|]. split; [done|]. split; [done|]. split; [done|].
  exists s. split; [done|]. split; [done|].
  unfold calculateMarginUsed.
  cbn [snd marginUsed set_marginUsed set_positions hedgeType].
  rewrite Hh. reflexivity.
Qed.

End RunClaims.

(** ** The registry and the ordered index *)

Lemma elem_of_Delete (id x : string) (s : SortedTrades.t) :
  NoDup s → x ∈ SortedTrades.Delete id s ↔ x ∈ s ∧ x ≠ id.
Proof.
  induction 1 as [|y s Hy Hnd IH]; cbn.
  - split; [by intros ?%elem_of_nil|by intros [?%elem_of_nil _]].
  - case_decide as Hid.
    + subst y. rewrite elem_of_cons. split.
      * intros Hx. split; [by right|]. by intros ->.
      * by intros [[->|Hx] Hne].
    + rewrite !elem_of_cons, IH. split.
      * intros [->|[Hx Hne]]; [split; [by left|done]|split; [by right|done]].
      * intros [[->|Hx] Hne]; [by left|by right].
Qed.

Lemma NoDup_Delete (id : string) (s : SortedTrades.t) :
  NoDup s → NoDup (SortedTrades.Delete id s).
Proof.
  induction 1 as [|y s Hy Hnd IH]; cbn; [constructor|].
  case_decide; [done|]. constructor; [|done].
  rewrite elem_of_Delete by done. by intros [? _].
Qed.

(** On an index without repetition, deleting the first occurrence is
    deleting every occurrence. *)
Lemma Delete_filter (id : string) (s : SortedTrades.t) :
  NoDup s → SortedTrades.Delete id s = filter (λ x, x ≠ id) s.
Proof.
  induction 1 as [|y s Hy Hnd IH]; cbn [SortedTrades.Delete]; [done|].
  case_decide as Hid.
  - subst y. rewrite filter_cons_False by naive_solver.
    symmetry. clear IH Hnd. induction s as [|z s IH]; [done|].
    apply not_elem_of_cons in Hy as [Hne Hy].
    rewrite filter_cons_True by naive_solver. f_equal. by apply IH.
  - rewrite filter_cons_True by done. by rewrite IH.
Qed.

Lemma occurrences_not_elem (id : string) (s : SortedTrades.t) :
  id ∉ s → occurrences id s = 0.
Proof.
  unfold occurrences. induction s as [|x s IH]; [done|].
  intros [Hne Hs]%not_elem_of_cons.
  rewrite filter_cons_False by done. by apply IH.
Qed.

Lemma occurrences_NoDup (id : string) (s : SortedTrades.t) :
  NoDup s → id ∈ s → occurrences id s = 1.
Proof.
  induction 1 as [|y s Hy Hnd IH]; [by intros ?%elem_of_nil|].
  intros [->|Hin]%elem_of_cons; unfold occurrences.
  - rewrite filter_cons_True by done. cbn.
    f_equal. by apply occurrences_not_elem.
  - rewrite filter_cons_False; [by apply IH|]. by intros ->.
Qed.

Lemma occurrences_app (id : string) (s1 s2 : SortedTrades.t) :
  occurrences id (s1 ++ s2) = occurrences id s1 + occurrences id s2.
Proof. unfold occurrences. by rewrite filter_app, length_app. Qed.

Section RegistryClaims.

Context `{V : Position.Valuation}.

(** What a step does to the registry and to the ordered index. *)
Lemma step_registry op s s' :
  step op s = Some s' →
  match op with
  | OpenTrade id _ _ _ _ =>
      trades s'.2 = <[id := nextAddr s.1]> (trades s.2) ∧
      tradesTimeOrder s'.2 = tradesTimeOrder s.2 ++ [id]
  | CloseTrade id =>
      trades s'.2 = delete id (trades s.2) ∧
      tradesTimeOrder s'.2 = SortedTrades.Delete id (tradesTimeOrder s.2)
  | _ =>
      trades s'.2 = trades s.2 ∧ tradesTimeOrder s'.2 = tradesTimeOrder s.2
  end.
Proof.
  destruct s as [w i], op; cbn [step fst snd]; try (by intros [= <-]).
  - intros [= <-]. apply openTrade_registry.
  - intros Hc. apply closeTrade_cases in Hc as [[Hn ->]|Hc].
    + cbn. split; [|done]. symmetry. by apply delete_id.
    + by destruct Hc as (a & tr & _ & _ & _ & Hreg & Hidx & _).
Qed.

Lemma indexed_matches i : indexed i → registryMatchesIndex i.
Proof.
  intros [Hiff Hnd]. split; [done|]. intros id Hid.
  apply occurrences_NoDup; [done|]. by apply Hiff.
Qed.

Lemma step_indexed op s s' :
  step op s = Some s' →
  opensFresh (dom (trades s.2)) [op] = true →
  indexed s.2 →
  indexed s'.2 ∧
  ∀ ops, opensFresh (dom (trades s.2)) (op :: ops)
         = opensFresh (dom (trades s'.2)) ops.
Proof.
  intros Hs Hfresh [Hiff Hnd]. apply step_registry in Hs.
  destruct op; cbn [opensFresh] in *;
    try (destruct Hs as [Hreg Hidx]; unfold indexed;
         rewrite Hreg, Hidx; split; [split; [exact Hiff|exact Hnd]|done]).
  - destruct Hs as [Hreg Hidx].
    apply andb_prop in Hfresh as [Hid%bool_decide_eq_true _].
    rewrite not_elem_of_dom in Hid.
    split; [split|].
    + intros x. rewrite Hreg, Hidx, elem_of_app, list_elem_of_singleton.
      rewrite <- Hiff. destruct (decide (id = x)) as [->|Hne].
      * rewrite lookup_insert_eq. split; [by right|by eauto].
      * rewrite lookup_insert_ne by done. split; [by left|].
        intros [?|Heq]; [done|by subst].
    + rewrite Hidx. apply NoDup_app. split; [done|].
      split; [|apply NoDup_singleton].
      intros x Hx ->%list_elem_of_singleton.
      apply Hiff in Hx. rewrite Hid in Hx. by destruct Hx.
    + intros ops. rewrite Hreg, dom_insert_L.
      rewrite bool_decide_eq_true_2; [done|]. by apply not_elem_of_dom.
  - destruct Hs as [Hreg Hidx]. split; [split|].
    + intros x. rewrite Hreg, Hidx, elem_of_Delete by done.
      rewrite <- Hiff. destruct (decide (id = x)) as [->|Hne].
      * rewrite lookup_delete_eq. split; [by intros []|by intros [_ ?]].
      * rewrite lookup_delete_ne by done. split; [done|by intros []].
    + rewrite Hidx. by apply NoDup_Delete.
    + intros ops. by rewrite Hreg, dom_delete_L.
Qed.

Lemma run_indexed ops s :
  tradesBound s → indexed s.2 →
  opensFresh (dom (trades s.2)) ops = true →
  ∃ s', run ops s = Some s' ∧ indexed s'.2.
Proof.
  revert s. induction ops as [|op ops IH]; intros s Hb Hi Hf;
    [by exists s|].
  destruct (step_tradesBound op s Hb) as (s1 & Hs1 & Hb1).
  assert (Hop : opensFresh (dom (trades s.2)) [op] = true).
  { destruct op; cbn [opensFresh] in *; try done.
    apply andb_prop in Hf as [-> _]. done. }
  destruct (step_indexed _ _ _ Hs1 Hop Hi) as [Hi1 Hstep].
  rewrite Hstep in Hf.
  destruct (IH s1 Hb1 Hi1 Hf) as (s' & Hrun & Hi').
  exists s'. cbn [run]. by rewrite Hs1.
Qed.

(** C2 (as amended).  Take any run of operations on a fresh instrument in
    which no [openTrade] uses an identifier that is registered at that
    moment.  The run does not panic, and after it the identifiers of the
    registry are exactly those of the ordered index, each of them
    occurring once in the ordered index. *)
Theorem registry_matches_index (nm b q : string) (lev : float64)
    (w : World) (ops : list Op) :
  opensFresh ∅ ops = true →
  ∃ s, run ops (newInstrument nm b q lev w) = Some s ∧
       registryMatchesIndex s.2.
Proof.
  intros Hf.
  destruct (run_indexed ops (newInstrument nm b q lev w)) as (s & Hrun & Hi).
  - apply newInstrument_tradesBound.
  - rewrite newInstrument_eq. split; cbn; [|constructor].
    intros id. rewrite lookup_empty. split; [by intros []|].
    by intros ?%elem_of_nil.
  - rewrite newInstrument_eq. cbn. by rewrite dom_empty_L.
  - exists s. split; [done|]. by apply indexed_matches.
Qed.

End RegistryClaims.

(** ** Rounding of float64

    What [binary_round] does to a positive mantissa, from the definitions
    of the Standard Library's [SpecFloat]: the result is a canonical
    mantissa whose value is the exact value rounded down or up to the
    target exponent. *)

Section F64Rounding.

Local Open Scope Z_scope.

(** [digits2_pos m] is the number of binary digits of [m]. *)
Lemma digits2_pos_bounds (m : positive) :
  2 ^ (Zpos (digits2_pos m) - 1) <= Zpos m < 2 ^ Zpos (digits2_pos m).
Proof.
  induction m as [p IH|p IH|]; cbn [digits2_pos].
  - rewrite Pos2Z.inj_succ, Pos2Z.inj_xI.
    replace (Z.succ (Zpos (digits2_pos p)) - 1)
      with (Z.succ (Zpos (digits2_pos p) - 1)) by lia.
    rewrite !Z.pow_succ_r by lia. pow_lia.
  - rewrite Pos2Z.inj_succ. change (Z.pos p~0) with (2 * Z.pos p).
    replace (Z.succ (Zpos (digits2_pos p)) - 1)
      with (Z.succ (Zpos (digits2_pos p) - 1)) by lia.
    rewrite !Z.pow_succ_r by lia. pow_lia.
  - cbn. lia.
Qed.

Lemma digits2_pos_unique (m : positive) (d : Z) :
  2 ^ (d - 1) <= Zpos m < 2 ^ d -> Zpos (digits2_pos m) = d.
Proof.
  intros [Hlo Hhi]. pose proof (digits2_pos_bounds m) as [Hlo' Hhi'].
  destruct (Z.lt_trichotomy (Zpos (digits2_pos m)) d) as [Hlt|[Heq|Hgt]];
    [exfalso|exact Heq|exfalso].
  - assert (2 ^ Zpos (digits2_pos m) <= 2 ^ (d - 1))
      by (apply Z.pow_le_mono_r; lia). pow_lia.
  - assert (0 <= d \/ d < 0) as [Hd|Hd] by lia.
    + assert (2 ^ d <= 2 ^ (Zpos (digits2_pos m) - 1))
        by (apply Z.pow_le_mono_r; lia). pow_lia.
    + rewrite (Z.pow_neg_r 2 d) in Hhi by lia. lia.
Qed.

(** Shifting a mantissa left by [d] bits multiplies it by [2^d]. *)
Lemma iter_xO_mul (m d : positive) :
  Zpos (Pos.iter xO m d) = Zpos m * 2 ^ Zpos d.
Proof.
  induction d as [|d IH] using Pos.peano_ind.
  - cbn. lia.
  - rewrite Pos.iter_succ.
    change (Z.pos (Pos.iter xO m d)~0) with (2 * Z.pos (Pos.iter xO m d)).
    rewrite IH, Pos2Z.inj_succ, Z.pow_succ_r by lia. pow_lia.
Qed.

(** [SpecFloat]'s own iterator is [Pos.iter]. *)
Lemma iter_pos_iter {A : Type} (f : A -> A) (n : positive) (x : A) :
  SpecFloat.iter_pos f n x = Pos.iter f x n.
Proof.
  revert x. induction n as [n IH|n IH|]; intros x;
    cbn [SpecFloat.iter_pos Pos.iter].
  - rewrite !IH. rewrite <- !Pos.iter_swap. reflexivity.
  - rewrite !IH. reflexivity.
  - reflexivity.
Qed.

Lemma shr_1_div2 (mrs : shr_record) :
  0 <= shr_m mrs ->
  shr_m (shr_1 mrs) = shr_m mrs / 2 /\
  shr_r (shr_1 mrs) = Z.odd (shr_m mrs) /\
  shr_s (shr_1 mrs) = orb (shr_r mrs) (shr_s mrs).
Proof.
  destruct mrs as [m r s]. cbn [shr_m shr_r shr_s].
  intros Hm. destruct m as [|[p|p|]|p]; cbn [shr_1 shr_m shr_r shr_s];
    try lia.
  - repeat split.
  - repeat split. apply Z.div_unique with 1; lia.
  - repeat split. apply Z.div_unique with 0; lia.
  - repeat split.
Qed.

Lemma shifted_step (M k : Z) (mrs : shr_record) :
  0 <= M -> 0 <= k -> shifted M k mrs -> shifted M (k + 1) (shr_1 mrs).
Proof.
  intros HM Hk [Hm Hex].
  assert (Hpow : 0 < 2 ^ k) by (apply Z.pow_pos_nonneg; lia).
  assert (Hm0 : 0 <= shr_m mrs).
  { rewrite Hm. apply Z.div_pos; lia. }
  destruct (shr_1_div2 mrs Hm0) as (Hm1 & Hr1 & Hs1).
  unfold shifted.
  replace (2 ^ (k + 1)) with (2 ^ k * 2)
    by (rewrite Z.pow_add_r by lia; reflexivity).
  split.
  - rewrite Hm1, Hm. rewrite Z.div_div by lia. reflexivity.
  - rewrite Hr1, Hs1, Z.rem_mul_r by lia.
    pose proof (Z.mod_pos_bound M (2 ^ k) Hpow) as Hb1.
    rewrite orb_false_iff, Hex, Hm, Zmod_odd.
    destruct (Z.odd (M / 2 ^ k)); split.
    + intros [? _]; discriminate.
    + intros ?. exfalso. pow_lia.
    + intros [_ ?]. pow_lia.
    + intros ?. split; [reflexivity|pow_lia].
Qed.

(** Shifting right by [p] bits divides by [2^p] and records whether the
    division is exact. *)
Lemma shifted_iter (M : Z) (p : positive) :
  0 <= M ->
  shifted M (Zpos p)
    (SpecFloat.iter_pos shr_1 p (Build_shr_record M false false)).
Proof.
  intros HM. rewrite iter_pos_iter.
  induction p as [|p IH] using Pos.peano_ind.
  - apply (shifted_step M 0); [lia..|]. split; cbn.
    + symmetry. apply Z.div_1_r.
    + split; [intros _; apply Z.mod_1_r|reflexivity].
  - rewrite Pos.iter_succ, Pos2Z.inj_succ.
    apply (shifted_step M (Zpos p)); [lia..|exact IH].
Qed.

Lemma round_nearest_even_bounds (m : Z) (l : location) :
  m <= round_nearest_even m l <= m + 1.
Proof. destruct l as [|[]]; cbn; try destruct (Z.even m); lia. Qed.

Lemma loc_Exact_iff (mrs : shr_record) :
  loc_of_shr_record mrs = loc_Exact <-> orb (shr_r mrs) (shr_s mrs) = false.
Proof. destruct mrs as [m [] []]; cbn; split; congruence. Qed.

Lemma fexp_eq (e : Z) : fexp 53 1024 e = Z.max (e - 53) (-1074).
Proof. reflexivity. Qed.

(** A canonical mantissa has 53 digits, or fewer at the least exponent. *)
Lemma canonical_iff (m : positive) (e : Z) :
  canonical m e <->
  (Zpos (digits2_pos m) = 53 /\ -1074 <= e) \/
  (e = -1074 /\ Zpos (digits2_pos m) <= 53).
Proof.
  unfold canonical, canonical_mantissa. rewrite Z.eqb_eq, fexp_eq. lia.
Qed.

Lemma canonical_bounds (m : positive) (e : Z) :
  canonical m e ->
  -1074 <= e /\ Zpos m < 2 ^ 53 /\ (e = -1074 \/ 2 ^ 52 <= Zpos m).
Proof.
  intros Hc. apply canonical_iff in Hc.
  pose proof (digits2_pos_bounds m) as [Hlo Hhi].
  assert (Hmono : Zpos (digits2_pos m) <= 53 ->
                  2 ^ Zpos (digits2_pos m) <= 2 ^ 53).
  { intros ?. apply Z.pow_le_mono_r; lia. }
  destruct Hc as [[Hd He]|[He Hd]].
  - rewrite Hd in *. change (53 - 1) with 52 in Hlo. lia.
  - specialize (Hmono Hd). split; [lia|]. split; [lia|]. left; exact He.
Qed.

Lemma canonical_of_bounds (m : positive) (e : Z) :
  -1074 <= e -> 2 ^ 52 <= Zpos m < 2 ^ 53 -> canonical m e.
Proof.
  intros He Hm. apply canonical_iff. left. split; [|exact He].
  apply digits2_pos_unique. exact Hm.
Qed.

(** Rounding a canonical mantissa changes nothing. *)
Lemma binary_round_aux_canonical (m : positive) (e : Z) :
  canonical m e ->
  binary_round_aux 53 1024 false (Zpos m) e loc_Exact
  = if e <=? 971 then S754_finite false m e else S754_infinity false.
Proof.
  intros Hc. unfold canonical, canonical_mantissa in Hc.
  apply Z.eqb_eq in Hc.
  unfold binary_round_aux, shr_fexp. cbn [Zdigits2 shr_record_of_loc].
  rewrite Hc, Z.sub_diag. cbn [shr shr_m loc_of_shr_record round_nearest_even].
  cbn [Zdigits2 shr_record_of_loc]. rewrite Hc, Z.sub_diag.
  cbn [shr shr_m]. reflexivity.
Qed.

Lemma pow2_pos (k : Z) : 0 <= k -> 0 < 2 ^ k.
Proof. intros. apply Z.pow_pos_nonneg; lia. Qed.

(** When the mantissa has at most as many digits as the format holds, it is
    aligned to its canonical exponent and nothing is lost. *)
Lemma binary_round_exact (M : positive) (e : Z) :
  -1074 <= e ->
  fexp 53 1024 (Zpos (digits2_pos M) + e) <= e ->
  exists mz ez,
    canonical mz ez /\ val mz ez = val M e /\
    binary_round 53 1024 false M e
    = if ez <=? 971 then S754_finite false mz ez else S754_infinity false.
Proof.
  intros He HE. unfold binary_round, shl_align.
  destruct (fexp 53 1024 (Zpos (digits2_pos M) + e) - e) as [|d|d] eqn:Hd;
    [|lia|].
  - exists M, e. assert (Hc : canonical M e).
    { unfold canonical, canonical_mantissa. apply Z.eqb_eq. lia. }
    split; [exact Hc|]. split; [reflexivity|].
    by apply binary_round_aux_canonical.
  - set (E := fexp 53 1024 (Zpos (digits2_pos M) + e)) in *.
    exists (Pos.iter xO M d), E.
    pose proof (digits2_pos_bounds M) as [Hlo Hhi].
    assert (HEe : e = E + Zpos d) by lia.
    assert (Hpd : 0 < 2 ^ Zpos d) by (apply pow2_pos; lia).
    assert (Hdig : Zpos (digits2_pos (Pos.iter xO M d))
                   = Zpos (digits2_pos M) + Zpos d).
    { apply digits2_pos_unique. rewrite iter_xO_mul.
      replace (Zpos (digits2_pos M) + Zpos d - 1)
        with ((Zpos (digits2_pos M) - 1) + Zpos d) by lia.
      rewrite !Z.pow_add_r by lia. pow_nia. }
    assert (Hc : canonical (Pos.iter xO M d) E).
    { unfold canonical, canonical_mantissa. apply Z.eqb_eq.
      rewrite Hdig. replace (Zpos (digits2_pos M) + Zpos d + E)
        with (Zpos (digits2_pos M) + e) by lia. reflexivity. }
    split; [exact Hc|]. split.
    + unfold val. rewrite iter_xO_mul, HEe.
      assert (-1074 <= E) by (unfold E; rewrite fexp_eq; lia).
      replace (E + Zpos d + 1074) with (Zpos d + (E + 1074)) by lia.
      rewrite (Z.pow_add_r 2 (Zpos d)) by lia. lia.
    + by apply binary_round_aux_canonical.
Qed.

Lemma round_nearest_even_cases (mrs : shr_record) (M k : Z) :
  shifted M k mrs ->
  let m' := round_nearest_even (shr_m mrs) (loc_of_shr_record mrs) in
  m' = M / 2 ^ k \/ (M mod 2 ^ k <> 0 /\ m' = M / 2 ^ k + 1).
Proof.
  intros [Hm Hex]. cbn zeta.
  destruct (loc_of_shr_record mrs) eqn:Hloc.
  - left. cbn. exact Hm.
  - assert (Hne : M mod 2 ^ k <> 0).
    { intros H0. apply Hex in H0. apply loc_Exact_iff in H0. congruence. }
    pose proof (round_nearest_even_bounds (shr_m mrs) (loc_Inexact c)).
    rewrite Hm in *. lia.
Qed.

Lemma shr_fexp_shift (M d : positive) (e : Z) :
  fexp 53 1024 (Zpos (digits2_pos M) + e) - e = Zpos d ->
  shr_fexp 53 1024 (Zpos M) e loc_Exact
  = (SpecFloat.iter_pos shr_1 d (Build_shr_record (Zpos M) false false),
     e + Zpos d).
Proof.
  intros Hd. unfold shr_fexp. cbn [Zdigits2 shr_record_of_loc].
  rewrite Hd. reflexivity.
Qed.

Lemma binary_round_shift (M d : positive) (e : Z) :
  fexp 53 1024 (Zpos (digits2_pos M) + e) - e = Zpos d ->
  binary_round 53 1024 false M e
  = let mrs := SpecFloat.iter_pos shr_1 d
                 (Build_shr_record (Zpos M) false false) in
    finish (round_nearest_even (shr_m mrs) (loc_of_shr_record mrs))
           (e + Zpos d).
Proof.
  intros Hd. unfold binary_round, shl_align. rewrite Hd.
  unfold binary_round_aux. rewrite (shr_fexp_shift M d e Hd). reflexivity.
Qed.

Lemma finish_53 (m : positive) (E : Z) :
  canonical m E ->
  finish (Zpos m) E
  = if E <=? 971 then S754_finite false m E else S754_infinity false.
Proof.
  intros Hc. unfold canonical, canonical_mantissa in Hc.
  apply Z.eqb_eq in Hc.
  unfold finish, shr_fexp. cbn [Zdigits2 shr_record_of_loc].
  rewrite Hc, Z.sub_diag. reflexivity.
Qed.

Lemma finish_carry (E : Z) :
  -1074 <= E ->
  finish (2 ^ 53) E
  = if E + 1 <=? 971 then S754_finite false 4503599627370496 (E + 1)
    else S754_infinity false.
Proof.
  intros HE. unfold finish, shr_fexp.
  change (Zdigits2 (2 ^ 53)) with 54. rewrite fexp_eq.
  replace (Z.max (54 + E - 53) (-1074) - E) with 1 by lia.
  reflexivity.
Qed.

(** Otherwise the mantissa is cut to 53 digits and rounded to nearest
    even; a carry out of the 53 digits moves to the next exponent. *)
Lemma binary_round_inexact (M : positive) (e : Z) :
  -1074 <= e ->
  e < fexp 53 1024 (Zpos (digits2_pos M) + e) ->
  let p := Zpos (digits2_pos M) - 53 in
  let m := Zpos M / 2 ^ p in
  0 < p /\ 2 ^ 52 <= m < 2 ^ 53 /\
  exists mR eR,
    canonical mR eR /\
    (val mR eR = m * 2 ^ (e + p + 1074) \/
     (Zpos M mod 2 ^ p <> 0 /\ val mR eR = (m + 1) * 2 ^ (e + p + 1074))) /\
    binary_round 53 1024 false M e
    = if eR <=? 971 then S754_finite false mR eR else S754_infinity false.
Proof.
  intros He HE. cbn zeta.
  destruct (fexp 53 1024 (Zpos (digits2_pos M) + e) - e) as [|d|d] eqn:Hd;
    [lia| |lia].
  rewrite (binary_round_shift M d e Hd). cbn zeta.
  rewrite fexp_eq in HE, Hd.
  set (dM := Zpos (digits2_pos M)) in *.
  assert (Hp : 0 < dM - 53) by lia.
  pose proof (digits2_pos_bounds M) as [Hlo Hhi]. fold dM in Hlo, Hhi.
  assert (Hpp : 0 < 2 ^ (dM - 53)) by (apply pow2_pos; lia).
  assert (Hm : 2 ^ 52 <= Zpos M / 2 ^ (dM - 53) < 2 ^ 53).
  { assert (H1 : 2 ^ (dM - 1) = 2 ^ 52 * 2 ^ (dM - 53))
      by (rewrite <- Z.pow_add_r by lia; f_equal; lia).
    assert (H2 : 2 ^ dM = 2 ^ 53 * 2 ^ (dM - 53))
      by (rewrite <- Z.pow_add_r by lia; f_equal; lia).
    rewrite H1 in Hlo. rewrite H2 in Hhi.
    split.
    - apply Z.div_le_lower_bound; [lia|]. lia.
    - apply Z.div_lt_upper_bound; [lia|]. lia. }
  split; [exact Hp|]. split; [exact Hm|].
  assert (Hdp : Zpos d = dM - 53) by lia.
  pose proof (shifted_iter (Zpos M) d ltac:(lia)) as Hsh.
  set (mrs := SpecFloat.iter_pos shr_1 d
                (Build_shr_record (Zpos M) false false)) in *.
  pose proof (round_nearest_even_cases mrs _ _ Hsh) as Hrne.
  cbn zeta in Hrne. rewrite Hdp in Hrne.
  set (m' := round_nearest_even (shr_m mrs) (loc_of_shr_record mrs)) in *.
  set (m := Zpos M / 2 ^ (dM - 53)) in *.
  assert (Hm' : m <= m' <= m + 1) by lia.
  rewrite Hdp.
  set (E := e + (dM - 53)).
  assert (HE1 : -1074 < E) by (unfold E; lia).
  assert (Hpu : 0 < 2 ^ (E + 1074)) by (apply pow2_pos; lia).
  destruct (Z_lt_le_dec m' (2 ^ 53)) as [Hsmall|Hbig].
  - (* the rounded mantissa still has 53 digits *)
    destruct m' as [|pm'|pm'] eqn:Hpm'; [lia| |lia].
    assert (Hc : canonical pm' E) by (apply canonical_of_bounds; lia).
    exists pm', E. split; [exact Hc|]. split.
    + unfold val. destruct Hrne as [->|[Hne ->]]; [left|right]; done.
    + by apply finish_53.
  - (* the rounded mantissa is 2^53 *)
    assert (Hpm : m' = 2 ^ 53) by lia. rewrite Hpm.
    exists 4503599627370496%positive, (E + 1).
    split; [apply canonical_of_bounds; [lia|done]|]. split.
    + right. destruct Hrne as [Hr|[Hne Hr]]; [lia|]. split; [exact Hne|].
      unfold val. rewrite <- Hr, Hpm.
      replace (E + 1 + 1074) with (1 + (E + 1074)) by lia.
      rewrite (Z.pow_add_r 2 1) by lia. lia.
    + apply finish_carry. lia.
Qed.

(** Both cases at once: the result is a canonical mantissa, and its value
    is the exact value when that is a multiple of the unit [2^E] of the
    target exponent, and one of the two neighbouring multiples otherwise. *)
Lemma binary_round_spec (M : positive) (e : Z) :
  -1074 <= e ->
  exists (m E : Z) (mR : positive) (eR : Z),
    -1074 <= E /\ (E = -1074 \/ 2 ^ 52 <= m) /\
    m * 2 ^ (E + 1074) <= val M e < (m + 1) * 2 ^ (E + 1074) /\
    canonical mR eR /\
    (val mR eR = m * 2 ^ (E + 1074) \/
     (m * 2 ^ (E + 1074) < val M e /\
      val mR eR = (m + 1) * 2 ^ (E + 1074))) /\
    binary_round 53 1024 false M e
    = if eR <=? 971 then S754_finite false mR eR else S754_infinity false.
Proof.
  intros He.
  destruct (Z_le_gt_dec (fexp 53 1024 (Zpos (digits2_pos M) + e)) e)
    as [Hle|Hgt].
  - destruct (binary_round_exact M e He Hle) as (mz & ez & Hc & Hv & Hr).
    destruct (canonical_bounds mz ez Hc) as (Hez & _ & Hnorm).
    assert (Hpu : 0 < 2 ^ (ez + 1074)) by (apply pow2_pos; lia).
    exists (Zpos mz), ez, mz, ez.
    rewrite <- Hv. unfold val.
    repeat split; try done; try lia.
  - destruct (binary_round_inexact M e He ltac:(lia))
      as (Hp & Hm & mR & eR & Hc & Hv & Hr).
    set (p := Zpos (digits2_pos M) - 53) in *.
    set (m := Zpos M / 2 ^ p) in *.
    assert (Hpp : 0 < 2 ^ p) by (apply pow2_pos; lia).
    assert (Hpe : 0 < 2 ^ (e + 1074)) by (apply pow2_pos; lia).
    assert (HU : 2 ^ (e + p + 1074) = 2 ^ p * 2 ^ (e + 1074)).
    { rewrite <- Z.pow_add_r by lia. f_equal. lia. }
    pose proof (Z.div_mod (Zpos M) (2 ^ p) ltac:(lia)) as Hdm.
    pose proof (Z.mod_pos_bound (Zpos M) (2 ^ p) Hpp) as Hmod.
    fold m in Hdm.
    exists m, (e + p), mR, eR.
    split; [lia|]. split; [right; lia|].
    rewrite HU in *. unfold val in *.
    split; [|split; [exact Hc|split; [|exact Hr]]].
    + split; pow_nia.
    + destruct Hv as [Hv|[Hne Hv]]; [left; exact Hv|right].
      split; [|exact Hv]. pow_nia.
Qed.

(** Canonical mantissas are ordered as their values are. *)
Lemma canonical_order (m1 m2 : positive) (e1 e2 : Z) :
  canonical m1 e1 -> canonical m2 e2 ->
  val m1 e1 <= val m2 e2 ->
  e1 < e2 \/ (e1 = e2 /\ (m1 <= m2)%positive).
Proof.
  intros Hc1 Hc2 Hv.
  destruct (canonical_bounds _ _ Hc1) as (He1 & Hm1 & Hn1).
  destruct (canonical_bounds _ _ Hc2) as (He2 & Hm2 & Hn2).
  unfold val in Hv.
  assert (Hp2 : 0 < 2 ^ (e2 + 1074)) by (apply pow2_pos; lia).
  destruct (Z.lt_trichotomy e1 e2) as [Hlt|[Heq|Hgt]]; [by left| |exfalso].
  - right. split; [exact Heq|]. subst e2. pow_nia.
  - assert (HU : 2 ^ (e1 + 1074) = 2 ^ (e1 - e2) * 2 ^ (e2 + 1074)).
    { rewrite <- Z.pow_add_r by lia. f_equal. lia. }
    assert (Hc : 2 ^ 1 <= 2 ^ (e1 - e2))
      by (apply Z.pow_le_mono_r; lia).
    change (2 ^ 1) with 2 in Hc.
    rewrite HU in Hv. destruct Hn1 as [?|Hn1]; [lia|].
    assert (H1 : 2 ^ 53 <= Zpos m1 * 2 ^ (e1 - e2)) by pow_nia.
    assert (H2 : Zpos m2 * 2 ^ (e2 + 1074)
                 < (Zpos m1 * 2 ^ (e1 - e2)) * 2 ^ (e2 + 1074))
      by (apply Z.mul_lt_mono_pos_r; lia).
    pow_lia.
Qed.

(** Lower bound: a canonical value below the exact result stays below the
    rounded one.  Upper bound likewise. *)
Lemma round_lower (M : positive) (e : Z) (mx : positive) (ex : Z) :
  -1074 <= e -> canonical mx ex -> val mx ex <= val M e ->
  exists mR eR,
    canonical mR eR /\ val mx ex <= val mR eR /\
    binary_round 53 1024 false M e
    = if eR <=? 971 then S754_finite false mR eR else S754_infinity false.
Proof.
  intros He Hcx Hv.
  destruct (binary_round_spec M e He)
    as (m & E & mR & eR & HE & Hn & Hb & Hc & HR & Hr).
  exists mR, eR. split; [exact Hc|]. split; [|exact Hr].
  destruct (canonical_bounds _ _ Hcx) as (Hex & Hmx & Hnx).
  assert (Hpu : 0 < 2 ^ (E + 1074)) by (apply pow2_pos; lia).
  assert (Hpx : 0 < 2 ^ (ex + 1074)) by (apply pow2_pos; lia).
  assert (Hdown : val mx ex <= m * 2 ^ (E + 1074)).
  { unfold val in *. destruct (Z_le_gt_dec E ex) as [Hle|Hgt].
    - assert (HU : 2 ^ (ex + 1074) = 2 ^ (ex - E) * 2 ^ (E + 1074)).
      { rewrite <- Z.pow_add_r by lia. f_equal. lia. }
      assert (Hc0 : 0 < 2 ^ (ex - E)) by (apply pow2_pos; lia).
      rewrite HU in *.
      assert (Zpos mx * 2 ^ (ex - E) < m + 1) by pow_nia.
      pow_nia.
    - assert (HU : 2 ^ (E + 1074) = 2 ^ (E - ex) * 2 ^ (ex + 1074)).
      { rewrite <- Z.pow_add_r by lia. f_equal. lia. }
      assert (Hc0 : 2 ^ 1 <= 2 ^ (E - ex))
        by (apply Z.pow_le_mono_r; lia).
      change (2 ^ 1) with 2 in Hc0.
      destruct Hn as [?|Hn]; [lia|].
      rewrite HU in *. pow_nia. }
  destruct HR as [->|[_ ->]]; [exact Hdown|]. lia.
Qed.

Lemma round_upper (M : positive) (e : Z) (mx : positive) (ex : Z) :
  -1074 <= e -> canonical mx ex -> val M e <= val mx ex ->
  exists mR eR,
    canonical mR eR /\ val mR eR <= val mx ex /\
    binary_round 53 1024 false M e
    = if eR <=? 971 then S754_finite false mR eR else S754_infinity false.
Proof.
  intros He Hcx Hv.
  destruct (binary_round_spec M e He)
    as (m & E & mR & eR & HE & Hn & Hb & Hc & HR & Hr).
  exists mR, eR. split; [exact Hc|]. split; [|exact Hr].
  destruct (canonical_bounds _ _ Hcx) as (Hex & Hmx & Hnx).
  assert (Hpu : 0 < 2 ^ (E + 1074)) by (apply pow2_pos; lia).
  assert (Hpx : 0 < 2 ^ (ex + 1074)) by (apply pow2_pos; lia).
  destruct HR as [->|[Hstrict ->]]; [lia|].
  unfold val in *. destruct (Z_le_gt_dec E ex) as [Hle|Hgt].
  - assert (HU : 2 ^ (ex + 1074) = 2 ^ (ex - E) * 2 ^ (E + 1074)).
    { rewrite <- Z.pow_add_r by lia. f_equal. lia. }
    assert (Hc0 : 0 < 2 ^ (ex - E)) by (apply pow2_pos; lia).
    rewrite HU in *.
    assert (m < Zpos mx * 2 ^ (ex - E)) by pow_nia.
    pow_nia.
  - exfalso.
    assert (HU : 2 ^ (E + 1074) = 2 ^ (E - ex) * 2 ^ (ex + 1074)).
    { rewrite <- Z.pow_add_r by lia. f_equal. lia. }
    assert (Hc0 : 2 ^ 1 <= 2 ^ (E - ex))
      by (apply Z.pow_le_mono_r; lia).
    change (2 ^ 1) with 2 in Hc0.
    destruct Hn as [?|Hn]; [lia|].
    rewrite HU in *. pow_nia.
Qed.

(** float64 [<=] on positive finite numbers is the lexicographic order on
    exponent and mantissa. *)
Lemma le_finite (m1 m2 : positive) (e1 e2 : Z) :
  le (S754_finite false m1 e1) (S754_finite false m2 e2) = true <->
  e1 < e2 \/ (e1 = e2 /\ (m1 <= m2)%positive).
Proof.
  unfold le, SFleb. cbn [SFcompare].
  destruct (Z.compare_spec e1 e2) as [Heq|Hlt|Hgt].
  - change (Pos.compare_cont Eq m1 m2) with (Pos.compare m1 m2).
    destruct (Pos.compare_spec m1 m2); split; try done; try lia.
  - split; [lia|done].
  - split; [done|lia].
Qed.

Lemma le_round (mR : positive) (eR : Z) (x : float64) :
  (eR <= 971 -> le x (S754_finite false mR eR) = true) ->
  le x (S754_infinity false) = true ->
  le x (if eR <=? 971 then S754_finite false mR eR
        else S754_infinity false) = true.
Proof. intros H1 H2. destruct (Z.leb_spec eR 971); auto. Qed.

Lemma le_round_lower (M mx : positive) (e ex : Z) :
  -1074 <= e -> canonical mx ex -> val mx ex <= val M e ->
  le (S754_finite false mx ex) (binary_round prec emax false M e) = true.
Proof.
  intros He Hc Hv. unfold prec, emax.
  destruct (round_lower M e mx ex He Hc Hv) as (mR & eR & HcR & HvR & ->).
  apply le_round; [intros _|reflexivity].
  apply le_finite. by apply canonical_order.
Qed.

Lemma le_round_upper (M mx : positive) (e ex : Z) :
  -1074 <= e -> canonical mx ex -> ex <= 971 -> val M e <= val mx ex ->
  le (binary_round prec emax false M e) (S754_finite false mx ex) = true.
Proof.
  intros He Hc Hex Hv. unfold prec, emax.
  destruct (round_upper M e mx ex He Hc Hv) as (mR & eR & HcR & HvR & ->).
  pose proof (canonical_order _ _ _ _ HcR Hc HvR) as Hord.
  destruct (Z.leb_spec eR 971); [|lia]. by apply le_finite.
Qed.

(** The result of rounding a positive mantissa is never negative. *)
Lemma abs_binary_round_false (M : positive) (e : Z) :
  -1074 <= e ->
  abs (binary_round prec emax false M e) = binary_round prec emax false M e.
Proof.
  intros He. unfold prec, emax.
  destruct (binary_round_spec M e He)
    as (m & E & mR & eR & _ & _ & _ & _ & _ & ->).
  by destruct (eR <=? 971).
Qed.

Lemma shl_align_val (m : positive) (e ez : Z) :
  -1074 <= ez <= e ->
  Zpos (fst (shl_align m e ez)) * 2 ^ (ez + 1074) = val m e.
Proof.
  intros He. unfold shl_align, val.
  destruct (ez - e) as [|d|d] eqn:Hd; cbn [fst]; [|lia|].
  - replace e with ez by lia. reflexivity.
  - rewrite iter_xO_mul. replace (Zpos d) with (e - ez) by lia.
    replace (e + 1074) with ((e - ez) + (ez + 1074)) by lia.
    rewrite (Z.pow_add_r 2 (e - ez)) by lia. lia.
Qed.

(** Positive finite operands: the sum is the rounding of a mantissa whose
    value is the sum of the two values. *)
Lemma add_finite (m1 m2 : positive) (e1 e2 : Z) :
  -1074 <= e1 -> -1074 <= e2 ->
  exists P,
    add (S754_finite false m1 e1) (S754_finite false m2 e2)
    = binary_round prec emax false P (Z.min e1 e2) /\
    val P (Z.min e1 e2) = val m1 e1 + val m2 e2.
Proof.
  intros He1 He2. unfold add. cbn [SFadd cond_Zopp].
  set (ez := Z.min e1 e2).
  exists (fst (shl_align m1 e1 ez) + fst (shl_align m2 e2 ez))%positive.
  split; [reflexivity|].
  rewrite <- (shl_align_val m1 e1 ez), <- (shl_align_val m2 e2 ez)
    by (unfold ez; lia).
  unfold val. rewrite Pos2Z.inj_add. lia.
Qed.

(** The absolute difference is zero or the rounding of a mantissa whose
    value is the distance of the two values. *)
Lemma abs_sub_finite (m1 m2 : positive) (e1 e2 : Z) :
  -1074 <= e1 -> -1074 <= e2 ->
  abs (sub (S754_finite false m1 e1) (S754_finite false m2 e2)) = zero \/
  exists P,
    abs (sub (S754_finite false m1 e1) (S754_finite false m2 e2))
    = binary_round prec emax false P (Z.min e1 e2) /\
    (val P (Z.min e1 e2) = val m1 e1 - val m2 e2 \/
     val P (Z.min e1 e2) = val m2 e2 - val m1 e1).
Proof.
  intros He1 He2. unfold sub. cbn [SFsub cond_Zopp].
  set (ez := Z.min e1 e2).
  pose proof (shl_align_val m1 e1 ez ltac:(unfold ez; lia)) as Hv1.
  pose proof (shl_align_val m2 e2 ez ltac:(unfold ez; lia)) as Hv2.
  set (a := fst (shl_align m1 e1 ez)) in *.
  set (b := fst (shl_align m2 e2 ez)) in *.
  destruct (Zpos a - Zpos b) as [|P|P] eqn:HP; cbn [binary_normalize].
  - by left.
  - right. exists P. split; [apply abs_binary_round_false; unfold ez; lia|].
    left. rewrite <- Hv1, <- Hv2. unfold val. rewrite <- HP. lia.
  - right. exists P. split.
    + rewrite (abs_binary_round true). cbn [negb].
      apply abs_binary_round_false. unfold ez; lia.
    + right. rewrite <- Hv1, <- Hv2. unfold val.
      replace (Zpos P) with (Zpos b - Zpos a) by lia. lia.
Qed.

(** float64 [<=] is transitive on values that are not negative. *)
Lemma le_trans_nonneg (x y z : float64) :
  nonneg_class x = true -> nonneg_class y = true -> nonneg_class z = true ->
  le x y = true -> le y z = true -> le x z = true.
Proof.
  intros Hx Hy Hz Hxy Hyz.
  destruct x as [sx|[]| |[] mx ex]; try discriminate Hx;
  destruct y as [sy|[]| |[] my ey]; try discriminate Hy;
  destruct z as [sz|[]| |[] mz ez]; try discriminate Hz;
  try reflexivity; try discriminate Hxy; try discriminate Hyz.
  rewrite le_finite in *. lia.
Qed.

Lemma nonneg_class_round (M : positive) (e : Z) :
  -1074 <= e -> nonneg_class (binary_round prec emax false M e) = true.
Proof.
  intros He. unfold prec, emax.
  destruct (binary_round_spec M e He)
    as (m & E & mR & eR & _ & _ & _ & _ & _ & ->).
  by destruct (eR <=? 971).
Qed.

Lemma valid_finite (m : positive) (e : Z) :
  valid (S754_finite false m e) = true -> canonical m e /\ e <= 971.
Proof.
  unfold valid, valid_binary, bounded, canonical.
  intros [Hc He]%andb_prop. split; [exact Hc|].
  apply Z.leb_le in He. exact He.
Qed.

Lemma val_pos (m : positive) (e : Z) : -1074 <= e -> 0 < val m e.
Proof.
  intros He. unfold val.
  assert (0 < 2 ^ (e + 1074)) by (apply Z.pow_pos_nonneg; lia). lia.
Qed.

(** The three rules on two positive finite margins. *)
Lemma rules_ordered_finite (m1 m2 : positive) (e1 e2 : Z) :
  let short := S754_finite false m1 e1 in
  let long := S754_finite false m2 e2 in
  valid short = true -> valid long = true ->
  le short (noHedgeRule short long) = true /\
  le long (noHedgeRule short long) = true /\
  nonneg_class (noHedgeRule short long) = true /\
  nonneg_class (fullHedgeRule short long) = true /\
  (le (fullHedgeRule short long) short = true \/
   le (fullHedgeRule short long) long = true).
Proof.
  cbn zeta. intros [Hc1 Hb1]%valid_finite [Hc2 Hb2]%valid_finite.
  destruct (canonical_bounds _ _ Hc1) as (He1 & _).
  destruct (canonical_bounds _ _ Hc2) as (He2 & _).
  pose proof (val_pos m1 e1 He1) as Hp1.
  pose proof (val_pos m2 e2 He2) as Hp2.
  unfold noHedgeRule, fullHedgeRule.
  destruct (add_finite m2 m1 e2 e1 He2 He1) as (P & -> & HP).
  assert (Hez : -1074 <= Z.min e2 e1) by lia.
  assert (Hez' : -1074 <= Z.min e1 e2) by lia.
  split; [apply le_round_lower; [done..|lia]|].
  split; [apply le_round_lower; [done..|lia]|].
  split; [by apply nonneg_class_round|].
  destruct (abs_sub_finite m1 m2 e1 e2 He1 He2) as [->|(D & -> & HD)].
  - split; [reflexivity|]. by left.
  - split; [by apply nonneg_class_round|].
    pose proof (val_pos D _ Hez') as HpD.
    destruct HD as [HD|HD]; [left|right];
      apply le_round_upper; try done; lia.
Qed.

(** The three rules are ordered on finite margins that are not negative. *)
Lemma rules_ordered (short long : float64) :
  valid short = true -> valid long = true ->
  finite_nonneg short = true -> finite_nonneg long = true ->
  le (fullHedgeRule short long) (noHedgeRule short long) = true /\
  le (fullHedgeRule short long) (halfHedgeRule short long) = true /\
  le (halfHedgeRule short long) (noHedgeRule short long) = true.
Proof.
  intros Hvs Hvl Hfs Hfl.
  destruct short as [ss| | |[] m1 e1]; try discriminate Hfs;
  destruct long as [sl| | |[] m2 e2]; try discriminate Hfl.
  - by destruct ss, sl.
  - assert (fullHedgeRule (S754_zero ss) (S754_finite false m2 e2)
            = S754_finite false m2 e2) as -> by reflexivity.
    assert (noHedgeRule (S754_zero ss) (S754_finite false m2 e2)
            = S754_finite false m2 e2) as -> by reflexivity.
    assert (halfHedgeRule (S754_zero ss) (S754_finite false m2 e2)
            = S754_finite false m2 e2) as -> by reflexivity.
    by rewrite le_refl.
  - assert (fullHedgeRule (S754_finite false m1 e1) (S754_zero sl)
            = S754_finite false m1 e1) as -> by reflexivity.
    assert (noHedgeRule (S754_finite false m1 e1) (S754_zero sl)
            = S754_finite false m1 e1) as -> by reflexivity.
    assert (halfHedgeRule (S754_finite false m1 e1) (S754_zero sl)
            = S754_finite false m1 e1) as -> by reflexivity.
    by rewrite le_refl.
  - destruct (rules_ordered_finite m1 m2 e1 e2 Hvs Hvl)
      as (HsN & HlN & HnN & HnF & HF).
    destruct (halfHedgeRule_max (S754_finite false m1 e1)
                (S754_finite false m2 e2)) as [Hin Hub].
    destruct (Hub eq_refl eq_refl) as [HsH HlH].
    set (short := S754_finite false m1 e1) in *.
    set (long := S754_finite false m2 e2) in *.
    assert (HnH : nonneg_class (halfHedgeRule short long) = true)
      by (destruct Hin as [->| ->]; reflexivity).
    assert (HHN : le (halfHedgeRule short long) (noHedgeRule short long)
                  = true)
      by (destruct Hin as [->| ->]; assumption).
    assert (HFH : le (fullHedgeRule short long) (halfHedgeRule short long)
                  = true).
    { destruct HF as [HF|HF].
      - by apply (le_trans_nonneg _ short).
      - by apply (le_trans_nonneg _ long). }
    split; [|by split].
    by apply (le_trans_nonneg _ (halfHedgeRule short long)).
Qed.

(** C7 (as amended).  For two margins that are finite and not negative
    (binary64 values of class zero or positive finite), the margin of the
    FullHedge case is at most that of the NoHedge case, and the margin of
    the HalfHedge case lies between the two, all three computed by the
    [switch] of [calculateMarginUsed] in float64 arithmetic and compared
    with float64 [<=]. *)
Theorem hedge_rules_ordered (short long old : float64) :
  valid short = true -> valid long = true ->
  finite_nonneg short = true -> finite_nonneg long = true ->
  le (combineMargin FullHedge short long old)
     (combineMargin NoHedge short long old) = true /\
  le (combineMargin FullHedge short long old)
     (combineMargin HalfHedge short long old) = true /\
  le (combineMargin HalfHedge short long old)
     (combineMargin NoHedge short long old) = true.
Proof.
  intros Hvs Hvl Hfs Hfl.
  rewrite combineMargin_NoHedge, combineMargin_FullHedge,
    combineMargin_HalfHedge.
  by apply rules_ordered.
Qed.

End F64Rounding.

(** ** The claims on the scenario *)

Section OnScenario.

#[local] Existing Instance SpecValuation.valuation.

(** The claim C1 as first stated fails: under HalfHedge a NaN short margin
    with a long margin of 0 gives 0, which is not the maximum of the two
    (the short margin is not [<=] it, and the larger of NaN and a number
    is NaN).  Such margins arise with leverage 0 before the first tick:
    the one short trade needs 1000 x 0 / 0 = NaN, the empty long position
    needs 0, and the instrument's margin is set to 0. *)
Lemma half_hedge_not_maximum :
  combineMargin HalfHedge S754_nan zero (of_Z 3) = zero ∧
  le S754_nan (combineMargin HalfHedge S754_nan zero (of_Z 3)) = false ∧
  let s := run [OpenTrade "B" Short 1 1000 Scenario.price]
             (newInstrument "EUR/USD" "EUR" "USD" zero emptyWorld) in
  let half s := (calculateMarginUsed s.1 (set_hedgeType HalfHedge s.2)).2 in
  (λ s, Position.marginUsed (shortPosition (half s))) <$> s
  = Some S754_nan ∧
  (λ s, Position.marginUsed (longPosition (half s))) <$> s = Some zero ∧
  (λ s, marginUsed (half s)) <$> s = Some zero ∧
  (λ s, le (Position.marginUsed (shortPosition (half s)))
           (marginUsed (half s))) <$> s = Some false.
Proof. vm_compute. repeat split; reflexivity. Qed.

Lemma calculateMarginUsed_unknown_policy_witness :
  marginUsed
    (calculateMarginUsed Scenario.opened.1
       (set_marginUsed (of_Z 3) (set_hedgeType 7%Z Scenario.opened.2))).2
  = of_Z 3.
Proof.
  apply (calculateMarginUsed_unknown_policy
           Scenario.opened.1
           (set_marginUsed (of_Z 3) (set_hedgeType 7%Z Scenario.opened.2)));
    discriminate.
Defined.

Lemma updatePrice_frame_witness :
  loadFloat (ask Scenario.opened.2)
    (updatePrice (Tick.mk (of_Z 2) (of_Z 1)) Scenario.opened.1
       Scenario.opened.2).1 = Some (of_Z 2) ∧
  loadFloat (bid Scenario.opened.2)
    (updatePrice (Tick.mk (of_Z 2) (of_Z 1)) Scenario.opened.1
       Scenario.opened.2).1 = Some (of_Z 1).
Proof.
  assert (Hcells : cellsApart Scenario.opened.2).
  { vm_compute. repeat split; discriminate. }
  pose proof (updatePrice_frame (Tick.mk (of_Z 2) (of_Z 1))
                Scenario.opened.1 Scenario.opened.2 Hcells)
    as (_ & Ha & Hb & _).
  exact (conj Ha Hb).
Defined.

Lemma closeTrade_unknown_witness :
  ∃ w2 i2,
    closeTrade "Z"
      (warn (closeWarning Scenario.opened.2) Scenario.opened.1)
      Scenario.opened.2 = Some (w2, i2) ∧
    trades i2 = trades Scenario.opened.2 ∧
    longPosition i2 = longPosition Scenario.opened.2 ∧
    shortPosition i2 = shortPosition Scenario.opened.2.
Proof.
  pose proof (closeTrade_unknown "Z"
                Scenario.opened.1 Scenario.opened.2) as [Hfirst Hsecond].
  assert (Hnone : trades Scenario.opened.2 !! "Z" = None)
    by (vm_compute; reflexivity).
  assert (Hclose : closeTrade "Z" Scenario.opened.1 Scenario.opened.2
                   = Some (warn (closeWarning Scenario.opened.2)
                             Scenario.opened.1, Scenario.opened.2))
    by (vm_compute; reflexivity).
  destruct (Hfirst Hnone) as (w' & i' & _).
  destruct (Hsecond _ _ Hclose)
    as (_ & w2 & i2 & Hc & _ & _ & _ & Ht & Hl & Hs & _).
  exists w2, i2. exact (conj Hc (conj Ht (conj Hl Hs))).
Defined.


Lemma registry_matches_index_witness :
  ∃ s, run
         [OpenTrade "A" Long 0 1000 Scenario.price;
          OpenTrade "B" Short 1 1000 Scenario.price;
          CloseTrade "A"; CloseTrade "A";
          OpenTrade "A" Short 2 500 Scenario.price]
         Scenario.fresh = Some s ∧
       registryMatchesIndex s.2.
Proof.
  apply (registry_matches_index).
  vm_compute. reflexivity.
Defined.

(** The claim C2 as first stated fails: after two [openTrade] with the
    same identifier the registry holds it once and the ordered index
    twice. *)
Lemma duplicate_open_twice_in_index :
  ∃ s, run
         [OpenTrade "A" Long 0 1000 Scenario.price;
          OpenTrade "A" Long 1 1000 Scenario.price]
         Scenario.fresh = Some s ∧
       is_Some (trades s.2 !! "A") ∧
       tradesTimeOrder s.2 = ["A"; "A"] ∧
       occurrences "A" (tradesTimeOrder s.2) = 2 ∧
       ¬ registryMatchesIndex s.2.
Proof.
  eexists. split; [vm_compute; reflexivity|].
  assert (Hreg : is_Some
            (trades (openTrade "A" Long 1 1000 Scenario.price
               (openTrade "A" Long 0 1000 Scenario.price
                  Scenario.fresh.1 Scenario.fresh.2).1
               (openTrade "A" Long 0 1000 Scenario.price
                  Scenario.fresh.1 Scenario.fresh.2).2).2 !! "A")).
  { vm_compute. eauto. }
  cbn [snd]. split; [exact Hreg|]. split; [reflexivity|].
  split; [reflexivity|].
  intros [_ Honce]. specialize (Honce "A" Hreg). discriminate Honce.
Qed.

Lemma hedge_rules_ordered_witness :
  le (combineMargin FullHedge (of_Z 22) (of_Z 7) zero)
     (combineMargin NoHedge (of_Z 22) (of_Z 7) zero) = true ∧
  le (combineMargin FullHedge (of_Z 22) (of_Z 7) zero)
     (combineMargin HalfHedge (of_Z 22) (of_Z 7) zero) = true ∧
  le (combineMargin HalfHedge (of_Z 22) (of_Z 7) zero)
     (combineMargin NoHedge (of_Z 22) (of_Z 7) zero) = true.
Proof.
  apply (hedge_rules_ordered (of_Z 22) (of_Z 7) zero);
    vm_compute; reflexivity.
Defined.

(** The claim C7 as first stated fails.  With a short margin of -1 and a
    long margin of 0 the FullHedge rule gives 1 and the NoHedge rule -1.
    With two margins of +Inf the FullHedge rule gives NaN, which is not
    [<=] anything; such margins arise on the scenario when the leverage is
    0. *)
Lemma hedge_rules_unordered :
  combineMargin FullHedge (of_Z (-1)) zero zero = of_Z 1 ∧
  combineMargin NoHedge (of_Z (-1)) zero zero = of_Z (-1) ∧
  le (combineMargin FullHedge (of_Z (-1)) zero zero)
     (combineMargin NoHedge (of_Z (-1)) zero zero) = false ∧
  combineMargin FullHedge pinf pinf zero = S754_nan ∧
  le (combineMargin FullHedge pinf pinf zero)
     (combineMargin NoHedge pinf pinf zero) = false ∧
  let s := run [OpenTrade "A" Long 0 1000 Scenario.price;
                OpenTrade "B" Short 1 1000 Scenario.price;
                UpdatePrice (Tick.mk Scenario.price Scenario.price)]
             (newInstrument "EUR/USD" "EUR" "USD" zero emptyWorld) in
  (λ s, Position.margin s.1 (shortPosition s.2)) <$> s = Some pinf ∧
  (λ s, Position.margin s.1 (longPosition s.2)) <$> s = Some pinf ∧
  (λ s, marginUsed (calculateMarginUsed s.1 s.2).2) <$> s = Some S754_nan.
Proof. vm_compute. repeat split; reflexivity. Qed.

End OnScenario.

(** ** Invariants of every run *)

Section MoreRuns.

Context `{V : Position.Valuation}.

Lemma Position_closeTrade_fields w a p :
  Position.side (Position.closeTrade w a p) = Position.side p ∧
  Position.trades (Position.closeTrade w a p)
  = filter (λ b, b ≠ a) (Position.trades p) ∧
  Position.marginUsed (Position.closeTrade w a p) = Position.marginUsed p.
Proof.
  unfold Position.closeTrade. by destruct (Position.settled w p a) as [[??]?].
Qed.

Lemma Position_calculateUnrealized_fields w p :
  Position.side (Position.calculateUnrealized w p) = Position.side p ∧
  Position.trades (Position.calculateUnrealized w p) = Position.trades p ∧
  Position.marginUsed (Position.calculateUnrealized w p)
  = Position.marginUsed p.
Proof.
  unfold Position.calculateUnrealized.
  by destruct (Position.unrealized w p) as [[??]?].
Qed.

Lemma openTrade_positions id side t u p w i :
  positionOf side (openTrade id side t u p w i).2
  = Position.openTrade (nextAddr w) (positionOf side i) ∧
  ∀ side', side' ≠ side →
    positionOf side' (openTrade id side t u p w i).2 = positionOf side' i.
Proof.
  unfold openTrade, allocTrade.
  destruct side; [rewrite decide_False by done|rewrite decide_True by done];
    (split; [done|]); by intros [].
Qed.

Lemma openTrade_aggregates id side t u p w i :
  let i' := (openTrade id side t u p w i).2 in
  unrealizedNetProfit i' = unrealizedNetProfit i ∧
  unrealizedEffectiveProfit i' = unrealizedEffectiveProfit i ∧
  chargedFees i' = chargedFees i ∧
  marginUsed i' = marginUsed i ∧
  baseCurrency i' = baseCurrency i ∧
  quoteCurrency i' = quoteCurrency i.
Proof. unfold openTrade, allocTrade. by case_decide. Qed.

Lemma sided_weaken side p w w' :
  sided side p w →
  (nextAddr w <= nextAddr w')%positive →
  (∀ a, (a < nextAddr w)%positive → tradeObjs w' !! a = tradeObjs w !! a) →
  sided side p w'.
Proof.
  intros [Hs Hall] Hle Hobj. split; [exact Hs|]. intros a Ha.
  destruct (Hall a Ha) as (Hlt & tr & Htr & Hside).
  split; [lia|]. exists tr. by rewrite Hobj.
Qed.

Lemma sided_filter side p p' w a :
  sided side p w →
  Position.side p' = Position.side p →
  Position.trades p' = filter (λ b, b ≠ a) (Position.trades p) →
  sided side p' w.
Proof.
  intros [Hs Hall] Hside Htr. split; [congruence|].
  intros b. rewrite Htr, list_elem_of_filter. intros [_ Hb]. by apply Hall.
Qed.

Lemma sided_same side p p' w :
  sided side p w →
  Position.side p' = Position.side p →
  Position.trades p' = Position.trades p →
  sided side p' w.
Proof.
  intros [Hs Hall] Hside Htr. split; [congruence|]. by rewrite Htr.
Qed.

(** The trades stay wired and the positions sided through every step. *)
Lemma step_wired op s s' :
  step op s = Some s' →
  tradesWired s → positionsSided s →
  tradesWired s' ∧ positionsSided s'.
Proof.
  intros Hstep Hw [HL HS].
  destruct (step_fields _ _ _ Hstep) as (Hn & Hl & Ha & Hb & _).
  pose proof (step_registry _ _ _ Hstep) as Hreg.
  assert (Hcell : ∀ sd, priceCell sd s'.2 = priceCell sd s.2)
    by (intros []; cbn; congruence).
  destruct s as [w i], op; cbn [step fst snd] in *.
  - (* openTrade *)
    injection Hstep as <-. destruct Hreg as [Hreg _].
    pose proof (openTrade_world id side openTime units openPrice w i) as Hwd.
    destruct (openTrade_positions id side openTime units openPrice w i)
      as [Hpos Hother].
    set (s1 := openTrade id side openTime units openPrice w i) in *.
    assert (Hobj : ∀ a, (a < nextAddr w)%positive →
              tradeObjs s1.1 !! a = tradeObjs w !! a).
    { intros a Hlt. rewrite Hwd. cbn. rewrite lookup_insert_ne by lia. done. }
    assert (Hnext : nextAddr s1.1 = Pos.succ (nextAddr w))
      by (by rewrite Hwd).
    split.
    + intros id' a'. rewrite Hreg, Hn, Hl. setoid_rewrite Hcell.
      destruct (decide (id = id')) as [->|Hne].
      * rewrite lookup_insert_eq. intros [= <-]. split.
        { rewrite Hnext. lia. }
        eexists. split; [rewrite Hwd; apply lookup_insert_eq|].
        by destruct side.
      * rewrite lookup_insert_ne by done. intros Hin.
        destruct (Hw id' a' Hin) as (Hlt & tr & Htr & Hrest).
        cbn in Hlt. split; [rewrite ?Hnext; lia|]. exists tr.
        rewrite Hobj by done. done.
    + assert (Hnew : sided side
                (Position.openTrade (nextAddr w) (positionOf side i)) s1.1).
      { assert (Hold : sided side (positionOf side i) w)
          by (by destruct side).
        destruct Hold as [Hsd Hall]. split; [exact Hsd|].
        intros a. unfold Position.openTrade; cbn [Position.trades].
        rewrite elem_of_app, list_elem_of_singleton.
        intros [Hin| ->].
        - destruct (Hall a Hin) as (Hlt & tr & Htr & Hside).
          split; [rewrite ?Hnext; lia|]. exists tr. by rewrite Hobj.
        - split; [rewrite ?Hnext; lia|]. eexists.
          split; [rewrite Hwd; apply lookup_insert_eq|done]. }
      rewrite <- Hpos in Hnew. unfold positionsSided.
      destruct side.
      * pose proof (Hother Short ltac:(done)) as Ho.
        cbn [positionOf] in Ho, Hnew. rewrite Ho.
        split; [exact Hnew|].
        apply (sided_weaken _ _ w); [done|rewrite Hnext; lia|done].
      * pose proof (Hother Long ltac:(done)) as Ho.
        cbn [positionOf] in Ho, Hnew. rewrite Ho.
        split; [|exact Hnew].
        apply (sided_weaken _ _ w); [done|rewrite Hnext; lia|done].
  - (* closeTrade *)
    apply closeTrade_cases in Hstep as [[Hnone ->]|Hc].
    + split; [|done]. intros id' a' Hin. by apply (Hw id' a').
    + destruct Hc as (a & tr & Hin & Htr & Hw' & Hr & _ & Hi).
      destruct s' as [w' i']. cbn [fst snd] in *. subst w'.
      split.
      * intros id' a'. cbn [fst snd]. rewrite Hr, Hn, Hl.
        setoid_rewrite Hcell.
        intros [_ Hin']%lookup_delete_Some. by apply (Hw id' a').
      * destruct (Position_closeTrade_fields w a (longPosition i))
          as (HsL & HtL & _).
        destruct (Position_closeTrade_fields w a (shortPosition i))
          as (HsS & HtS & _).
        destruct Hi as [[_ ->]|[_ ->]]; cbn; split; try done.
        -- by apply (sided_filter _ (longPosition i) _ _ a).
        -- by apply (sided_filter _ (shortPosition i) _ _ a).
  - (* calculateUnrealized *)
    injection Hstep as <-. split; [exact Hw|].
    destruct (Position_calculateUnrealized_fields w (longPosition i))
      as (HsL & HtL & _).
    destruct (Position_calculateUnrealized_fields w (shortPosition i))
      as (HsS & HtS & _).
    split; cbn; by eapply sided_same.
  - (* calculateMarginUsed *)
    injection Hstep as <-. split; [exact Hw|]. split; cbn;
      by eapply sided_same.
  - (* updatePrice *)
    injection Hstep as <-. by split.
  - (* a store into the leverage cell *)
    injection Hstep as <-. by split.
Qed.

Lemma tradesWired_bound s : tradesWired s → tradesBound s.
Proof.
  intros Hw id a Hin.
  destruct (Hw id a Hin) as (Hlt & tr & Htr & _ & _ & Hl & _).
  split; [done|]. by exists tr.
Qed.

Lemma run_wired ops s :
  tradesWired s → positionsSided s →
  ∃ s', run ops s = Some s' ∧ tradesWired s' ∧ positionsSided s'.
Proof.
  revert s. induction ops as [|op ops IH]; intros s Hw Hp; [by exists s|].
  destruct (step_tradesBound op s (tradesWired_bound s Hw))
    as (s1 & Hs1 & _).
  destruct (step_wired _ _ _ Hs1 Hw Hp) as [Hw1 Hp1].
  destruct (IH s1 Hw1 Hp1) as (s' & Hrun & Hres).
  exists s'. cbn [run]. by rewrite Hs1.
Qed.

Lemma newInstrument_wired nm b q lev w :
  tradesWired (newInstrument nm b q lev w) ∧
  positionsSided (newInstrument nm b q lev w).
Proof.
  rewrite newInstrument_eq. split.
  - intros id a. cbn. by rewrite lookup_empty.
  - split; (split; [done|]); intros a; cbn; by intros ?%elem_of_nil.
Qed.

End MoreRuns.

(** ** Looking trades up *)

Section Lookups.

Context `{V : Position.Valuation}.

Lemma Trade_of_opened id side t u p w i :
  Trade_ id (openTrade id side t u p w i).1 (openTrade id side t u p w i).2
  = Some (Trade.mk id (name i) side u t p (ccyConversion i)
            (Some (leverage i)) (Some (priceCell side i))).
Proof.
  unfold Trade_.
  destruct (openTrade_registry id side t u p w i) as [Hreg _].
  rewrite Hreg, openTrade_world. cbn [tradeObjs].
  rewrite !lookup_insert_eq. by destruct side.
Qed.

Lemma Trade_of_closed id w i s' :
  closeTrade id w i = Some s' → Trade_ id s'.1 s'.2 = None.
Proof.
  intros Hc. unfold Trade_.
  apply closeTrade_cases in Hc as [[Hnone ->]|Hc]; cbn [fst snd].
  - cbn. by rewrite Hnone.
  - destruct Hc as (a & tr & _ & _ & _ & -> & _).
    by rewrite lookup_delete_eq.
Qed.

(** X1.  After [openTrade(id, ...)] the accessor [Trade(id)] returns the
    trade just made, with the arguments of the call, the instrument's name
    and leverage cell and the price cell of its side; on an instrument
    whose registered trades were allocated before, [Trade] of every other
    identifier returns what it returned before. *)
Theorem Trade_after_openTrade (id : string) (side : Side)
    (openTime units : Z) (openPrice : float64) (w : World)
    (i : Instrument) :
  tradesBound (w, i) →
  let s' := openTrade id side openTime units openPrice w i in
  Trade_ id s'.1 s'.2
  = Some (Trade.mk id (name i) side units openTime openPrice
            (ccyConversion i) (Some (leverage i))
            (Some (priceCell side i))) ∧
  ∀ id', id' ≠ id → Trade_ id' s'.1 s'.2 = Trade_ id' w i.
Proof.
  intros Hb. cbn zeta. unfold Trade_.
  destruct (openTrade_registry id side openTime units openPrice w i)
    as [Hreg _].
  rewrite Hreg, openTrade_world. cbn [tradeObjs]. split.
  - rewrite !lookup_insert_eq. by destruct side.
  - intros id' Hne. rewrite lookup_insert_ne by done.
    destruct (trades i !! id') as [a|] eqn:Ha; [|done].
    destruct (Hb id' a Ha) as (Hlt & _). cbn in Hlt.
    rewrite lookup_insert_ne by lia. done.
Qed.

(** X2.  After a [closeTrade(id)] that returned, [Trade(id)] returns nil,
    whether the identifier was registered or not, and [Trade] of every
    other identifier returns what it returned before. *)
Theorem Trade_after_closeTrade (id : string) (w : World) (i : Instrument)
    (s' : State) :
  closeTrade id w i = Some s' →
  Trade_ id s'.1 s'.2 = None ∧
  ∀ id', id' ≠ id → Trade_ id' s'.1 s'.2 = Trade_ id' w i.
Proof.
  intros Hc. unfold Trade_.
  apply closeTrade_cases in Hc as [[Hnone ->]|Hc]; cbn [fst snd].
  - cbn. rewrite Hnone. done.
  - destruct Hc as (a & tr & _ & _ & -> & -> & _). split.
    + by rewrite lookup_delete_eq.
    + intros id' Hne. by rewrite lookup_delete_ne.
Qed.

Lemma step_orphaned side a op s s' :
  step op s = Some s' → orphaned side a s → orphaned side a s'.
Proof.
  intros Hstep (Hlt & Hreg & Hin).
  pose proof (step_registry _ _ _ Hstep) as Hr.
  destruct s as [w i], op; cbn [step fst snd] in *.
  - injection Hstep as <-. destruct Hr as [Hr _].
    destruct (openTrade_positions id side0 openTime units openPrice w i)
      as [Hpos Hother].
    split; [rewrite openTrade_world; cbn; lia|]. split.
    + intros id'. rewrite Hr. destruct (decide (id = id')) as [->|Hne].
      * rewrite lookup_insert_eq. intros [= Heq]. lia.
      * rewrite lookup_insert_ne by done. apply Hreg.
    + destruct (decide (side = side0)) as [->|Hne].
      * rewrite Hpos. unfold Position.openTrade; cbn [Position.trades].
        apply elem_of_app. by left.
      * by rewrite Hother.
  - apply closeTrade_cases in Hstep as [[_ ->]|Hc]; [done|].
    destruct Hc as (a' & tr & Ha' & _ & Hw & Hr' & _ & Hi).
    destruct s' as [w' i']. cbn [fst snd] in *. subst w'.
    split; [done|]. split.
    + intros id'. cbn [fst snd]. rewrite Hr'.
      intros [_ Hin']%lookup_delete_Some. by apply (Hreg id').
    + assert (Hne : a ≠ a') by (intros ->; by apply (Hreg id)).
      assert (Hkeep : ∀ p, a ∈ Position.trades p →
                a ∈ Position.trades (Position.closeTrade w a' p)).
      { intros p Hp.
        destruct (Position_closeTrade_fields w a' p) as (_ & -> & _).
        by apply list_elem_of_filter. }
      destruct Hi as [[_ ->]|[_ ->]]; destruct side; cbn in *; auto.
  - injection Hstep as <-. split; [done|]. split; [done|].
    destruct (Position_calculateUnrealized_fields w (longPosition i))
      as (_ & HtL & _).
    destruct (Position_calculateUnrealized_fields w (shortPosition i))
      as (_ & HtS & _).
    destruct side; cbn in *; congruence.
  - injection Hstep as <-. split; [done|]. split; [done|].
    by destruct side.
  - by injection Hstep as <-.
  - by injection Hstep as <-.
Qed.

Lemma run_orphaned side a ops s :
  tradesBound s → orphaned side a s →
  ∃ s', run ops s = Some s' ∧ orphaned side a s'.
Proof.
  revert s. induction ops as [|op ops IH]; intros s Hb Ho; [by exists s|].
  destruct (step_tradesBound op s Hb) as (s1 & Hs1 & Hb1).
  destruct (IH s1 Hb1 (step_orphaned _ _ _ _ _ Hs1 Ho)) as (s' & Hrun & Ho').
  exists s'. cbn [run]. by rewrite Hs1.
Qed.

(** X4.  [openTrade] does not look for the identifier in the registry.
    When the same identifier is opened twice, the second trade replaces
    the first in the registry, and a [closeTrade] of the identifier closes
    the second one only: it hands the second trade to [Position.closeTrade]
    on the position of the second side, whose working set held that trade
    and holds it no more.  Afterwards the identifier is not registered,
    while the first trade is still in the working set of the position of
    its side, and it stays there through every later run: no identifier
    leads to it any more. *)
Theorem duplicate_open_leaves_orphan (id : string) (w : World)
    (i : Instrument) (side1 side2 : Side) (t1 u1 t2 u2 : Z)
    (p1 p2 : float64) (ops : list Op) :
  tradesBound (w, i) →
  let s1 := openTrade id side1 t1 u1 p1 w i in
  let s2 := openTrade id side2 t2 u2 p2 s1.1 s1.2 in
  Trade_ id s2.1 s2.2
  = Some (Trade.mk id (name i) side2 u2 t2 p2 (ccyConversion i)
            (Some (leverage i)) (Some (priceCell side2 i))) ∧
  trades s2.2 !! id = Some (Pos.succ (nextAddr w)) ∧
  Pos.succ (nextAddr w) ∈ Position.trades (positionOf side2 s2.2) ∧
  ∃ s3, closeTrade id s2.1 s2.2 = Some s3 ∧
    Trade_ id s3.1 s3.2 = None ∧
    positionOf side2 s3.2
    = Position.closeTrade s2.1 (Pos.succ (nextAddr w))
        (positionOf side2 s2.2) ∧
    (Pos.succ (nextAddr w) ∉ Position.trades (positionOf side2 s3.2)) ∧
    nextAddr w ∈ Position.trades (positionOf side1 s3.2) ∧
    ∃ s4, run ops s3 = Some s4 ∧
      nextAddr w ∈ Position.trades (positionOf side1 s4.2) ∧
      ∀ id', trades s4.2 !! id' ≠ Some (nextAddr w).
Proof.
  intros Hb. cbn zeta.
  set (s1 := openTrade id side1 t1 u1 p1 w i).
  set (s2 := openTrade id side2 t2 u2 p2 s1.1 s1.2).
  assert (Hs1 : step (OpenTrade id side1 t1 u1 p1) (w, i) = Some s1)
    by done.
  assert (Hs2 : step (OpenTrade id side2 t2 u2 p2) s1 = Some s2) by done.
  destruct (step_tradesBound (OpenTrade id side1 t1 u1 p1) _ Hb)
    as (? & [= <-] & Hb1). fold s1 in Hb1.
  destruct (step_tradesBound (OpenTrade id side2 t2 u2 p2) _ Hb1)
    as (? & [= <-] & Hb2). fold s2 in Hb2.
  destruct (step_tradesBound (CloseTrade id) _ Hb2) as (s3 & Hs3 & Hb3).
  destruct (step_fields _ _ _ Hs1) as (Hn1 & Hl1 & Ha1 & Hb1' & _).
  pose proof (Trade_of_opened id side2 t2 u2 p2 s1.1 s1.2) as Hget.
  fold s2 in Hget.
  split.
  { rewrite Hget. cbn [fst snd] in *.
    assert (Hccy : ccyConversion s1.2 = ccyConversion i)
      by (unfold s1, openTrade, allocTrade; by case_decide).
    assert (Hcell : priceCell side2 s1.2 = priceCell side2 i)
      by (destruct side2; cbn [priceCell]; congruence).
    congruence. }
  assert (Hw1 : nextAddr s1.1 = Pos.succ (nextAddr w))
    by (unfold s1; by rewrite openTrade_world).
  assert (Hw2 : nextAddr s2.1 = Pos.succ (nextAddr s1.1))
    by (unfold s2; by rewrite openTrade_world).
  destruct (openTrade_positions id side1 t1 u1 p1 w i) as [Hp1 _].
  fold s1 in Hp1.
  destruct (openTrade_registry id side2 t2 u2 p2 s1.1 s1.2) as [Hr2 _].
  fold s2 in Hr2.
  assert (Hreg2 : trades s2.2 !! id = Some (Pos.succ (nextAddr w)))
    by (by rewrite Hr2, lookup_insert_eq, Hw1).
  assert (Hin2 : Pos.succ (nextAddr w)
                 ∈ Position.trades (positionOf side2 s2.2)).
  { destruct (openTrade_positions id side2 t2 u2 p2 s1.1 s1.2)
      as [Hp2' _].
    fold s2 in Hp2'. rewrite Hp2'.
    unfold Position.openTrade; cbn [Position.trades]. rewrite Hw1.
    apply elem_of_app. right. by apply list_elem_of_singleton. }
  split; [exact Hreg2|]. split; [exact Hin2|].
  exists s3. split; [exact Hs3|].
  split; [exact (Trade_of_closed id s2.1 s2.2 s3 Hs3)|].
  (* the second trade goes through [Position.closeTrade] *)
  assert (Hpos3 : positionOf side2 s3.2
                  = Position.closeTrade s2.1 (Pos.succ (nextAddr w))
                      (positionOf side2 s2.2)).
  { pose proof (closeTrade_cases id s2.1 s2.2 s3 Hs3) as [[Hnone _]|Hc];
      [congruence|].
    destruct Hc as (a & tr & Ha & Htr & _ & _ & _ & Hside).
    assert (a = Pos.succ (nextAddr w)) as -> by congruence.
    assert (Hside2 : Trade.side tr = side2).
    { revert Htr. unfold s2 at 1. rewrite openTrade_world.
      cbn [tradeObjs]. rewrite <- Hw1, lookup_insert_eq.
      by intros [= <-]. }
    destruct Hside as [[HL ->]|[HS ->]]; rewrite Hside2 in *; subst side2;
      done. }
  split; [exact Hpos3|].
  split.
  { rewrite Hpos3.
    destruct (Position_closeTrade_fields s2.1 (Pos.succ (nextAddr w))
                (positionOf side2 s2.2)) as (_ & -> & _).
    intros [Hne _]%list_elem_of_filter. done. }
  (* the first trade is orphaned after the first open already, except
     that the registry still leads to it *)
  assert (Ho2 : orphaned side1 (nextAddr w) s2).
  { split; [lia|]. split.
    - intros id'. rewrite Hr2. destruct (decide (id = id')) as [->|Hne].
      + rewrite lookup_insert_eq. intros [= Heq]. lia.
      + rewrite lookup_insert_ne by done.
        destruct (openTrade_registry id side1 t1 u1 p1 w i) as [Hr1 _].
        fold s1 in Hr1. rewrite Hr1, lookup_insert_ne by done.
        intros Hin. destruct (Hb id' _ Hin) as [Hlt _]. cbn in Hlt. lia.
    - destruct (openTrade_positions id side2 t2 u2 p2 s1.1 s1.2)
        as [Hp2 Hother]. fold s2 in Hp2, Hother.
      assert (Hin1 : nextAddr w ∈ Position.trades (positionOf side1 s1.2)).
      { rewrite Hp1. unfold Position.openTrade; cbn [Position.trades].
        apply elem_of_app. right. by apply list_elem_of_singleton. }
      destruct (decide (side1 = side2)) as [->|Hne].
      + rewrite Hp2. unfold Position.openTrade; cbn [Position.trades].
        apply elem_of_app. by left.
      + by rewrite Hother. }
  pose proof (step_orphaned _ _ _ _ _ Hs3 Ho2) as Ho3.
  split; [apply Ho3|].
  destruct (run_orphaned side1 (nextAddr w) ops s3 Hb3 Ho3)
    as (s4 & Hrun & (_ & Hreg4 & Hin4)).
  exists s4. done.
Qed.

End Lookups.

(** ** Price ticks *)

(** X5.  A tick overwrites the one before it: two [updatePrice] in a row
    leave the store and the instrument as the second alone does. *)
Theorem updatePrice_overwrites (t1 t2 : Tick.t) (w : World)
    (i : Instrument) :
  updatePrice t2 (updatePrice t1 w i).1 (updatePrice t1 w i).2
  = updatePrice t2 w i.
Proof.
  unfold updatePrice, storeFloat. cbn. f_equal. f_equal.
  apply map_eq. intros c.
  destruct (decide (bid i = c)) as [->|Hb].
  - by rewrite !lookup_insert_eq.
  - rewrite !(lookup_insert_ne _ (bid i)) by done.
    destruct (decide (ask i = c)) as [->|Ha].
    + by rewrite !lookup_insert_eq.
    + by rewrite !lookup_insert_ne.
Qed.

(** ** Runs from a fresh instrument, continued *)

Lemma Delete_app_fresh (id : string) (l : list string) :
  id ∉ l → SortedTrades.Delete id (l ++ [id]) = l.
Proof.
  induction l as [|x l IH]; intros Hn; cbn.
  - by rewrite decide_True.
  - apply not_elem_of_cons in Hn as [Hne Hn].
    rewrite decide_False by done. by rewrite IH.
Qed.

Lemma filter_app_fresh (a : positive) (l : list positive) :
  a ∉ l → filter (λ b, b ≠ a) (l ++ [a]) = l.
Proof.
  intros Hn. rewrite filter_app.
  rewrite (filter_cons_False _ a []) by naive_solver.
  rewrite filter_nil, app_nil_r.
  induction l as [|x l IH]; [done|].
  apply not_elem_of_cons in Hn as [Hne Hn].
  rewrite filter_cons_True by done. by rewrite IH.
Qed.

Lemma Get_cases (k : Z) (l : list string) :
  SortedTrades.Get k l = EmptyString ∨ SortedTrades.Get k l ∈ l.
Proof.
  unfold SortedTrades.Get. destruct (k <? 0)%Z; [by left|].
  destruct (l !! Z.to_nat k) as [x|] eqn:Hx; [right|by left].
  cbn. by eapply list_elem_of_lookup_2.
Qed.

Section MoreRunClaims.

Context `{V : Position.Valuation}.

Lemma run_unique_wired nm b q lev w ops :
  opensFresh ∅ ops = true →
  ∃ s, run ops (newInstrument nm b q lev w) = Some s ∧
       indexed s.2 ∧ tradesWired s ∧ positionsSided s.
Proof.
  intros Hf.
  destruct (newInstrument_wired nm b q lev w) as [Hw0 Hp0].
  destruct (run_wired ops _ Hw0 Hp0) as (s & Hrun & Hw & Hp).
  destruct (run_indexed ops (newInstrument nm b q lev w))
    as (s' & Hrun' & Hi).
  - apply newInstrument_tradesBound.
  - rewrite newInstrument_eq. split; cbn; [|constructor].
    intros id. rewrite lookup_empty. split; [by intros []|].
    by intros ?%elem_of_nil.
  - rewrite newInstrument_eq. cbn. by rewrite dom_empty_L.
  - rewrite Hrun in Hrun'. injection Hrun' as <-. by exists s.
Qed.

(** X3.  Opening a trade under an identifier that is not registered and
    closing it at once undoes the opening: [closeTrade] finds the trade,
    logs nothing, and the registry, the ordered index, the working sets
    of both positions and the float cells are as they were before the
    [openTrade].  This holds after every run on a fresh instrument whose
    opens used unregistered identifiers. *)
Theorem open_close_round_trip (nm b q : string) (lev : float64)
    (w : World) (ops : list Op) :
  opensFresh ∅ ops = true →
  ∃ s, run ops (newInstrument nm b q lev w) = Some s ∧
    ∀ id side openTime units openPrice,
      trades s.2 !! id = None →
      let s1 := openTrade id side openTime units openPrice s.1 s.2 in
      ∃ s2, closeTrade id s1.1 s1.2 = Some s2 ∧
        trades s2.2 = trades s.2 ∧
        tradesTimeOrder s2.2 = tradesTimeOrder s.2 ∧
        Position.trades (longPosition s2.2)
        = Position.trades (longPosition s.2) ∧
        Position.trades (shortPosition s2.2)
        = Position.trades (shortPosition s.2) ∧
        floats s2.1 = floats s.1 ∧
        warnings s2.1 = warnings s.1.
Proof.
  intros Hf.
  destruct (run_unique_wired nm b q lev w ops Hf)
    as (s & Hrun & [Hiff Hnd] & Hw & [HL HS]).
  exists s. split; [exact Hrun|].
  intros id side t u p Hnone. cbn zeta.
  destruct s as [w0 i0]. cbn [fst snd] in *.
  set (s1 := openTrade id side t u p w0 i0).
  destruct (openTrade_registry id side t u p w0 i0) as [Hreg Hidx].
  destruct (openTrade_positions id side t u p w0 i0) as [Hpos Hother].
  pose proof (openTrade_world id side t u p w0 i0) as Hwd.
  fold s1 in Hreg, Hidx, Hpos, Hother, Hwd.
  assert (Hb1 : tradesBound s1).
  { destruct (step_tradesBound (OpenTrade id side t u p) (w0, i0)
                (tradesWired_bound _ Hw)) as (? & [= <-] & Hb1). exact Hb1. }
  destruct (step_tradesBound (CloseTrade id) s1 Hb1) as (s2 & Hs2 & _).
  cbn [step] in Hs2. exists s2. split; [exact Hs2|].
  apply closeTrade_cases in Hs2 as [[Hn _]|Hc].
  { rewrite Hreg, lookup_insert_eq in Hn. discriminate. }
  destruct Hc as (a & tr & Ha & Htr & Hw2 & Hr2 & Hi2 & Hi).
  rewrite Hreg, lookup_insert_eq in Ha. injection Ha as <-.
  rewrite Hwd in Htr. cbn [tradeObjs] in Htr.
  rewrite lookup_insert_eq in Htr. injection Htr as <-.
  assert (Hfresh : ∀ sd p0, sided sd p0 w0 →
            nextAddr w0 ∉ Position.trades p0).
  { intros sd p0 [_ Hall] Hin. destruct (Hall _ Hin) as [Hlt _]. lia. }
  assert (Hidn : id ∉ tradesTimeOrder i0).
  { intros Hin. apply Hiff in Hin. rewrite Hnone in Hin. by destruct Hin. }
  rewrite Hr2, Hi2, Hreg, Hidx, Hw2, Hwd.
  rewrite delete_insert_id by done. rewrite Delete_app_fresh by done.
  cbn [floats warnings Trade.side] in *.
  split; [done|]. split; [done|].
  destruct (Position_closeTrade_fields s1.1 (nextAddr w0)
              (longPosition s1.2)) as (_ & HtL & _).
  destruct (Position_closeTrade_fields s1.1 (nextAddr w0)
              (shortPosition s1.2)) as (_ & HtS & _).
  destruct Hi as [[Hside ->]|[Hside ->]]; subst side;
    cbn [positionOf] in Hpos;
    cbn [longPosition shortPosition set_longPosition set_shortPosition
         set_positions set_trades set_tradesTimeOrder].
  - pose proof (Hother Short ltac:(done)) as Ho. cbn [positionOf] in Ho.
    rewrite HtL, Hpos, Ho. unfold Position.openTrade; cbn [Position.trades].
    rewrite filter_app_fresh by (by eapply Hfresh). done.
  - pose proof (Hother Long ltac:(done)) as Ho. cbn [positionOf] in Ho.
    rewrite HtS, Hpos, Ho. unfold Position.openTrade; cbn [Position.trades].
    rewrite filter_app_fresh by (by eapply Hfresh). done.
Qed.

End MoreRunClaims.

Section MoreRunClaims2.

Context `{V : Position.Valuation}.

(** X6.  A tick reaches every registered trade: after any run on a fresh
    instrument and an [updatePrice], the price cell of a registered trade
    holds the tick's ask when the trade is short and the tick's bid when
    it is long, and the trade object itself is as before. *)
Theorem tick_reaches_trades (nm b q : string) (lev : float64) (w : World)
    (ops : list Op) (tick : Tick.t) :
  ∃ s, run ops (newInstrument nm b q lev w) = Some s ∧
    let s' := updatePrice tick s.1 s.2 in
    ∀ id tr, Trade_ id s.1 s.2 = Some tr →
      Trade_ id s'.1 s'.2 = Some tr ∧
      ∃ c, Trade.currentPrice tr = Some c ∧
           loadFloat c s'.1 = Some (tickPrice (Trade.side tr) tick).
Proof.
  destruct (newInstrument_wired nm b q lev w) as [Hw0 Hp0].
  destruct (run_wired ops _ Hw0 Hp0) as (s & Hrun & Hw & _).
  pose proof (run_cellsApart _ _ _ _ _ _ _ Hrun) as (Hab & _).
  exists s. split; [exact Hrun|]. cbn zeta.
  intros id tr. unfold Trade_. cbn [updatePrice fst snd storeFloat tradeObjs].
  destruct (trades s.2 !! id) as [a|] eqn:Ha; [|done]. intros Htr.
  split; [exact Htr|].
  destruct (Hw id a Ha) as (_ & tr' & Htr' & _ & _ & _ & Hcell).
  rewrite Htr in Htr'. injection Htr' as <-.
  eexists. split; [exact Hcell|].
  destruct (Trade.side tr); cbn [priceCell tickPrice].
  - apply loadFloat_store_eq.
  - rewrite loadFloat_store_ne by congruence. apply loadFloat_store_eq.
Qed.

Lemma step_figures op s s' :
  step op s = Some s' →
  (recomputesMargin op = false → marginUsed s'.2 = marginUsed s.2) ∧
  (recomputesUnrealized op = false →
   unrealizedNetProfit s'.2 = unrealizedNetProfit s.2 ∧
   unrealizedEffectiveProfit s'.2 = unrealizedEffectiveProfit s.2 ∧
   chargedFees s'.2 = chargedFees s.2) ∧
  baseCurrency s'.2 = baseCurrency s.2 ∧
  quoteCurrency s'.2 = quoteCurrency s.2.
Proof.
  destruct s as [w i], op; cbn [step fst snd].
  - intros [= <-].
    destruct (openTrade_aggregates id side openTime units openPrice w i)
      as (? & ? & ? & ? & ? & ?). done.
  - intros Hc. apply closeTrade_cases in Hc as [[_ ->]|Hc]; [done|].
    by destruct Hc as (a & tr & _ & _ & _ & _ & _ & [[_ ->]|[_ ->]]).
  - intros [= <-]. done.
  - intros [= <-]. done.
  - intros [= <-]. done.
  - intros [= <-]. done.
Qed.

(** X7.  Nothing recomputes the aggregate figures behind the caller's
    back.  Through any run that contains no [calculateMarginUsed] the
    accessor [MarginUsed] keeps returning the same value, whatever trades
    were opened or closed and whatever ticks arrived; the same holds of
    [UnrealizedNetProfit], [UnrealizedEffectiveProfit] and [ChargedFees]
    through any run that contains no [calculateUnrealized]. *)
Theorem figures_wait_for_recompute (ops : list Op) (s s' : State) :
  run ops s = Some s' →
  (forallb (λ op, negb (recomputesMargin op)) ops = true →
   MarginUsed s'.2 = MarginUsed s.2) ∧
  (forallb (λ op, negb (recomputesUnrealized op)) ops = true →
   UnrealizedNetProfit s'.2 = UnrealizedNetProfit s.2 ∧
   UnrealizedEffectiveProfit s'.2 = UnrealizedEffectiveProfit s.2 ∧
   ChargedFees s'.2 = ChargedFees s.2).
Proof.
  unfold MarginUsed, UnrealizedNetProfit, UnrealizedEffectiveProfit,
    ChargedFees.
  revert s. induction ops as [|op ops IH]; intros s; cbn [run forallb].
  - by intros [= <-].
  - destruct (step op s) as [s1|] eqn:Hs1; [|done]. intros Hrun.
    destruct (IH s1 Hrun) as [IHm IHu].
    destruct (step_figures _ _ _ Hs1) as (Hm & Hu & _).
    split.
    + intros [Hop Hrest]%andb_prop. apply negb_true_iff in Hop.
      rewrite IHm by done. by apply Hm.
    + intros [Hop Hrest]%andb_prop. apply negb_true_iff in Hop.
      destruct (IHu Hrest) as (-> & -> & ->). by apply Hu.
Qed.

Lemma run_currencies ops s s' :
  run ops s = Some s' →
  baseCurrency s'.2 = baseCurrency s.2 ∧
  quoteCurrency s'.2 = quoteCurrency s.2.
Proof.
  revert s. induction ops as [|op ops IH]; intros s; cbn [run].
  - by intros [= <-].
  - destruct (step op s) as [s1|] eqn:Hs1; [|done]. intros Hrun.
    destruct (IH s1 Hrun) as [-> ->].
    by destruct (step_figures _ _ _ Hs1) as (_ & _ & ? & ?).
Qed.

(** X8.  The identity of an instrument is fixed at construction: after
    every run, [Name], [BaseCurrency] and [QuoteCurrency] return the
    arguments of [newInstrument], and every trade that [Trade(id)] returns
    carries the identifier [id] and the instrument's name. *)
Theorem identity_is_fixed (nm b q : string) (lev : float64) (w : World)
    (ops : list Op) :
  ∃ s, run ops (newInstrument nm b q lev w) = Some s ∧
    Name s.2 = nm ∧ BaseCurrency s.2 = b ∧ QuoteCurrency s.2 = q ∧
    ∀ id tr, Trade_ id s.1 s.2 = Some tr →
      Trade.id tr = id ∧ Trade.instrument tr = nm.
Proof.
  destruct (newInstrument_wired nm b q lev w) as [Hw0 Hp0].
  destruct (run_wired ops _ Hw0 Hp0) as (s & Hrun & Hw & _).
  destruct (run_fields _ _ _ Hrun) as (Hn & _).
  destruct (run_currencies _ _ _ Hrun) as (Hb & Hq).
  rewrite newInstrument_eq in Hn, Hb, Hq. cbn in Hn, Hb, Hq.
  exists s. split; [exact Hrun|].
  split; [exact Hn|]. split; [exact Hb|]. split; [exact Hq|].
  intros id tr. unfold Trade_.
  destruct (trades s.2 !! id) as [a|] eqn:Ha; [|done]. intros Htr.
  destruct (Hw id a Ha) as (_ & tr' & Htr' & Hid & Hname & _).
  rewrite Htr in Htr'. injection Htr' as <-. by rewrite Hname, Hn.
Qed.

(** X13.  A trade is filed under the position of its side and stays
    there: after every run on a fresh instrument, the long position is of
    side Long and every trade of its working set is a long trade, and the
    short position is of side Short and holds short trades only. *)
Theorem positions_hold_their_side (nm b q : string) (lev : float64)
    (w : World) (ops : list Op) :
  ∃ s, run ops (newInstrument nm b q lev w) = Some s ∧
    ∀ side,
      Position.side (positionOf side s.2) = side ∧
      ∀ a, a ∈ Position.trades (positionOf side s.2) →
        ∃ tr, tradeObjs s.1 !! a = Some tr ∧ Trade.side tr = side.
Proof.
  destruct (newInstrument_wired nm b q lev w) as [Hw0 Hp0].
  destruct (run_wired ops _ Hw0 Hp0) as (s & Hrun & _ & [HL HS]).
  exists s. split; [exact Hrun|].
  intros side.
  assert (Hs : sided side (positionOf side s.2) s.1) by (by destruct side).
  destruct Hs as [Hside Hall]. split; [exact Hside|].
  intros a Ha. by destruct (Hall a Ha) as [_ ?].
Qed.

(** X14.  What [TradeByOrder] returns can be looked up: after every run
    on a fresh instrument whose opens used unregistered identifiers, for
    every index, [TradeByOrder(index)] is the empty string or an
    identifier for which [Trade] returns a trade. *)
Theorem TradeByOrder_resolves (nm b q : string) (lev : float64)
    (w : World) (ops : list Op) :
  opensFresh ∅ ops = true →
  ∃ s, run ops (newInstrument nm b q lev w) = Some s ∧
    ∀ index,
      TradeByOrder index s.2 = EmptyString ∨
      is_Some (Trade_ (TradeByOrder index s.2) s.1 s.2).
Proof.
  intros Hf.
  destruct (run_unique_wired nm b q lev w ops Hf)
    as (s & Hrun & [Hiff _] & Hw & _).
  exists s. split; [exact Hrun|]. intros index. unfold TradeByOrder.
  destruct (Get_cases index (tradesTimeOrder s.2)) as [He|Hin];
    [by left|right].
  apply Hiff in Hin as [a Ha]. unfold Trade_. rewrite Ha.
  destruct (Hw _ a Ha) as (_ & tr & Htr & _). by exists tr.
Qed.

(** What a step does to the log. *)
Lemma step_warnings op s s' :
  step op s = Some s' →
  match op with
  | CloseTrade id =>
      is_Some (trades s.2 !! id) → warnings s'.1 = warnings s.1
  | _ => warnings s'.1 = warnings s.1
  end.
Proof.
  destruct s as [w i], op; cbn [step fst snd]; try (by intros [= <-]).
  - intros [= <-]. by rewrite openTrade_world.
  - intros Hc [a Ha]. apply closeTrade_cases in Hc as [[Hn _]|Hc];
      [congruence|].
    by destruct Hc as (? & ? & _ & _ & -> & _).
Qed.

Lemma run_closesKnown ops s :
  tradesBound s →
  closesKnown (dom (trades s.2)) ops = true →
  ∃ s', run ops s = Some s' ∧ warnings s'.1 = warnings s.1.
Proof.
  revert s. induction ops as [|op ops IH]; intros s Hb Hk; [by exists s|].
  destruct (step_tradesBound op s Hb) as (s1 & Hs1 & Hb1).
  pose proof (step_registry _ _ _ Hs1) as Hreg.
  pose proof (step_warnings _ _ _ Hs1) as Hlog.
  assert (Hnext : closesKnown (dom (trades s1.2)) ops = true ∧
                  warnings s1.1 = warnings s.1).
  { destruct op; cbn [closesKnown] in Hk;
      try (destruct Hreg as [-> _]; by split).
    - destruct Hreg as [-> _]. by rewrite dom_insert_L.
    - destruct Hreg as [-> _].
      apply andb_prop in Hk as [Hin%bool_decide_eq_true Hk].
      rewrite dom_delete_L. split; [done|].
      apply Hlog. by apply elem_of_dom. }
  destruct Hnext as [Hk1 Hw1].
  destruct (IH s1 Hb1 Hk1) as (s' & Hrun & Hw').
  exists s'. cbn [run]. rewrite Hs1. split; [done|]. congruence.
Qed.

(** X12.  The only thing the instrument ever logs is the warning of a
    [closeTrade] for an identifier that is not registered: a run on a
    fresh instrument in which every [closeTrade] names a registered
    identifier adds nothing to the log. *)
Theorem known_closes_log_nothing (nm b q : string) (lev : float64)
    (w : World) (ops : list Op) :
  closesKnown ∅ ops = true →
  ∃ s, run ops (newInstrument nm b q lev w) = Some s ∧
       warnings s.1 = warnings w.
Proof.
  intros Hk.
  destruct (run_closesKnown ops (newInstrument nm b q lev w))
    as (s & Hrun & Hw).
  - apply newInstrument_tradesBound.
  - rewrite newInstrument_eq. cbn. by rewrite dom_empty_L.
  - exists s. split; [exact Hrun|]. rewrite Hw. by rewrite newInstrument_eq.
Qed.

End MoreRunClaims2.

(** ** The margin rules at the edges of float64 *)

Lemma abs_sub_diag (x : float64) :
  abs (sub x x) = if is_finite x then zero else S754_nan.
Proof.
  destruct x as [[]|[]| |s m e]; try reflexivity.
  unfold sub. cbn [SFsub is_finite]. by rewrite Z.sub_diag.
Qed.

(** X9.  Under FullHedge a book whose two sides need the same margin
    needs none: when the recomputed long and short margins are the same
    finite value, [calculateMarginUsed] sets the instrument's margin to
    0.0 exactly, without rounding residue.  When they are the same
    infinite or NaN value it sets it to NaN. *)
Theorem fully_hedged_margin `{V : Position.Valuation} (w : World)
    (i : Instrument) :
  hedgeType i = FullHedge →
  Position.margin w (shortPosition i) = Position.margin w (longPosition i) →
  MarginUsed (calculateMarginUsed w i).2
  = if is_finite (Position.margin w (longPosition i)) then zero
    else S754_nan.
Proof.
  intros Hh Heq. unfold MarginUsed, calculateMarginUsed.
  cbn [snd marginUsed set_marginUsed set_positions hedgeType
       Position.marginUsed Position.calculateMarginUsed].
  rewrite Hh, combineMargin_FullHedge. unfold fullHedgeRule.
  rewrite Heq. apply abs_sub_diag.
Qed.

(** X10.  How the three cases of the [switch] treat a NaN margin.  The
    NoHedge sum and the FullHedge difference are NaN as soon as one of the
    two margins is.  The HalfHedge case is not symmetric: [short > long]
    is false when either is NaN, so a NaN short margin is dropped and the
    long margin returned, while a NaN long margin is returned. *)
Theorem margin_rules_on_NaN (x old : float64) :
  combineMargin NoHedge S754_nan x old = S754_nan ∧
  combineMargin NoHedge x S754_nan old = S754_nan ∧
  combineMargin FullHedge S754_nan x old = S754_nan ∧
  combineMargin FullHedge x S754_nan old = S754_nan ∧
  combineMargin HalfHedge S754_nan x old = x ∧
  combineMargin HalfHedge x S754_nan old = S754_nan.
Proof.
  rewrite !combineMargin_NoHedge, !combineMargin_FullHedge,
    !combineMargin_HalfHedge.
  unfold noHedgeRule, fullHedgeRule, halfHedgeRule.
  repeat split; try reflexivity; by destruct x as [[]|[]| |[] m e].
Qed.

(** X11.  The FullHedge margin is never negative, whatever the two
    margins are (negative ones included): it is NaN or a value with a
    clear sign bit, at least 0.0. *)
Theorem full_hedge_not_negative (short long old : float64) :
  let r := combineMargin FullHedge short long old in
  r = S754_nan ∨ (nonneg_class r = true ∧ le zero r = true).
Proof.
  cbn zeta. rewrite combineMargin_FullHedge. unfold fullHedgeRule.
  destruct (sub short long) as [s|s| |s m e]; cbn; auto.
Qed.

(** ** Prices through a run *)

Section Frames.

Context `{V : Position.Valuation}.

Lemma step_prices op s s' tick :
  ask s.2 ≠ bid s.2 → leverage s.2 ≠ ask s.2 → leverage s.2 ≠ bid s.2 →
  step op s = Some s' →
  loadFloat (ask s.2) s.1 = Some (Tick.Ask tick) →
  loadFloat (bid s.2) s.1 = Some (Tick.Bid tick) →
  loadFloat (ask s.2) s'.1 = Some (Tick.Ask (lastTick tick [op])) ∧
  loadFloat (bid s.2) s'.1 = Some (Tick.Bid (lastTick tick [op])).
Proof.
  destruct s as [w i], op; cbn [step fst snd lastTick];
    intros Hab Hla Hlb Hs Ha Hb.
  - injection Hs as <-. by rewrite openTrade_world.
  - apply closeTrade_cases in Hs as [[_ ->]|Hc]; [done|].
    by destruct Hc as (a & tr & _ & _ & -> & _).
  - by injection Hs as <-.
  - by injection Hs as <-.
  - injection Hs as <-. unfold updatePrice; cbn [fst]. split.
    + rewrite loadFloat_store_ne by congruence. apply loadFloat_store_eq.
    + apply loadFloat_store_eq.
  - injection Hs as <-. cbn [fst]. by rewrite !loadFloat_store_ne.
Qed.

Lemma run_prices ops s s' tick :
  ask s.2 ≠ bid s.2 → leverage s.2 ≠ ask s.2 → leverage s.2 ≠ bid s.2 →
  run ops s = Some s' →
  loadFloat (ask s.2) s.1 = Some (Tick.Ask tick) →
  loadFloat (bid s.2) s.1 = Some (Tick.Bid tick) →
  loadFloat (ask s.2) s'.1 = Some (Tick.Ask (lastTick tick ops)) ∧
  loadFloat (bid s.2) s'.1 = Some (Tick.Bid (lastTick tick ops)).
Proof.
  revert s tick. induction ops as [|op ops IH]; intros s tick Hab Hla Hlb.
  - by intros [= <-].
  - cbn [run]. destruct (step op s) as [s1|] eqn:Hs1; [|done].
    intros Hrun Ha Hb.
    destruct (step_prices _ _ _ _ Hab Hla Hlb Hs1 Ha Hb) as [Ha1 Hb1].
    destruct (step_fields _ _ _ Hs1) as (_ & Hl1 & Hask & Hbid & _).
    rewrite <- Hask in Ha1 |- *. rewrite <- Hbid in Hb1 |- *.
    replace (lastTick tick (op :: ops))
      with (lastTick (lastTick tick [op]) ops) by (by destruct op).
    apply IH; try done; congruence.
Qed.

(** X16.  [Ask] and [Bid] return the prices of the last tick: after every
    run on a fresh instrument they return the ask and the bid of the last
    [updatePrice] of the run, and 0.0 when the run has none; opening and
    closing trades, recomputing and storing a leverage do not touch
    them. *)
Theorem Ask_Bid_of_last_tick (nm b q : string) (lev : float64) (w : World)
    (ops : list Op) :
  ∃ s, run ops (newInstrument nm b q lev w) = Some s ∧
    Ask s.1 s.2 = Some (Tick.Ask (lastTick (Tick.mk zero zero) ops)) ∧
    Bid s.1 s.2 = Some (Tick.Bid (lastTick (Tick.mk zero zero) ops)).
Proof.
  destruct (run_tradesBound ops _ (newInstrument_tradesBound nm b q lev w))
    as (s & Hrun & _).
  destruct (run_fields _ _ _ Hrun) as (_ & _ & Ha & Hb & _).
  pose proof (newInstrument_cellsApart nm b q lev w)
    as (Hab & Hla & Hlb & _).
  destruct (newInstrument_loads nm b q lev w) as (_ & _ & Ha0 & Hb0).
  destruct (run_prices ops _ s (Tick.mk zero zero) Hab Hla Hlb Hrun Ha0 Hb0)
    as [Hask Hbid].
  exists s. split; [exact Hrun|]. unfold Ask, Bid. by rewrite Ha, Hb.
Qed.

End Frames.

(** ** The further properties on the scenario *)

Section MoreOnScenario.

#[local] Existing Instance SpecValuation.valuation.

Lemma Trade_after_openTrade_witness :
  Trade_ "A"
    (openTrade "A" Long 0 1000 Scenario.price Scenario.fresh.1
       Scenario.fresh.2).1
    (openTrade "A" Long 0 1000 Scenario.price Scenario.fresh.1
       Scenario.fresh.2).2
  = Some (Trade.mk "A" (name Scenario.fresh.2) Long 1000 0 Scenario.price
            (ccyConversion Scenario.fresh.2)
            (Some (leverage Scenario.fresh.2))
            (Some (priceCell Long Scenario.fresh.2))).
Proof.
  assert (Hb : tradesBound (Scenario.fresh.1, Scenario.fresh.2)).
  { intros id a. vm_compute. discriminate. }
  exact (proj1 (Trade_after_openTrade "A" Long 0 1000 Scenario.price
                  Scenario.fresh.1 Scenario.fresh.2 Hb)).
Defined.

Lemma Trade_after_closeTrade_witness :
  (λ s', Trade_ "A" s'.1 s'.2)
    <$> closeTrade "A" Scenario.opened.1 Scenario.opened.2
  = Some None.
Proof.
  destruct (closeTrade "A" Scenario.opened.1 Scenario.opened.2)
    as [s'|] eqn:Hc; [|vm_compute in Hc; discriminate Hc].
  cbn [fmap option_fmap option_map]. f_equal.
  exact (proj1 (Trade_after_closeTrade "A" Scenario.opened.1
                  Scenario.opened.2 s' Hc)).
Defined.

Lemma open_close_round_trip_witness :
  ∃ s, run [OpenTrade "A" Long 0 1000 Scenario.price]
         (newInstrument "EUR/USD" "EUR" "USD" (of_Z 50) emptyWorld)
       = Some s.
Proof.
  assert (Hf : opensFresh ∅ [OpenTrade "A" Long 0 1000 Scenario.price]
               = true) by (vm_compute; reflexivity).
  destruct (open_close_round_trip "EUR/USD" "EUR" "USD" (of_Z 50)
              emptyWorld _ Hf) as (s & Hrun & _).
  by exists s.
Defined.

Lemma duplicate_open_leaves_orphan_witness :
  let s1 := openTrade "A" Long 0 1000 Scenario.price Scenario.fresh.1
              Scenario.fresh.2 in
  let s2 := openTrade "A" Short 1 500 Scenario.price s1.1 s1.2 in
  trades s2.2 !! "A" = Some (Pos.succ (nextAddr Scenario.fresh.1)) ∧
  Pos.succ (nextAddr Scenario.fresh.1)
  ∈ Position.trades (positionOf Short s2.2) ∧
  ∃ s3,
    closeTrade "A" s2.1 s2.2 = Some s3 ∧
    Trade_ "A" s3.1 s3.2 = None ∧
    (Pos.succ (nextAddr Scenario.fresh.1)
     ∉ Position.trades (positionOf Short s3.2)) ∧
    nextAddr Scenario.fresh.1 ∈ Position.trades (positionOf Long s3.2) ∧
    ∃ s4, run [CloseTrade "A"; CalculateMarginUsed] s3 = Some s4 ∧
      nextAddr Scenario.fresh.1 ∈ Position.trades (positionOf Long s4.2) ∧
      ∀ id', trades s4.2 !! id' ≠ Some (nextAddr Scenario.fresh.1).
Proof.
  assert (Hb : tradesBound (Scenario.fresh.1, Scenario.fresh.2)).
  { intros id a. vm_compute. discriminate. }
  intros s1 s2.
  destruct (duplicate_open_leaves_orphan "A" Scenario.fresh.1
              Scenario.fresh.2 Long Short 0 1000 1 500 Scenario.price
              Scenario.price [CloseTrade "A"; CalculateMarginUsed] Hb)
    as (_ & Hreg & Hin2 & s3 & Hc & Hnone & _ & Hout & Hin & s4 & Hrun & H4).
  split; [exact Hreg|]. split; [exact Hin2|].
  exists s3. split; [exact Hc|]. split; [exact Hnone|].
  split; [exact Hout|]. split; [exact Hin|].
  exists s4. exact (conj Hrun H4).
Defined.

Lemma figures_wait_for_recompute_witness :
  (λ s', MarginUsed s'.2)
    <$> run [CalculateUnrealized;
             UpdatePrice (Tick.mk (of_Z 2) (of_Z 1));
             CloseTrade "A"] Scenario.opened
  = Some (MarginUsed Scenario.opened.2).
Proof.
  destruct (run [CalculateUnrealized;
                 UpdatePrice (Tick.mk (of_Z 2) (of_Z 1));
                 CloseTrade "A"] Scenario.opened)
    as [s'|] eqn:Hrun; [|vm_compute in Hrun; discriminate Hrun].
  cbn [fmap option_fmap option_map]. f_equal.
  exact (proj1 (figures_wait_for_recompute _ _ _ Hrun) eq_refl).
Defined.

Lemma fully_hedged_margin_witness :
  MarginUsed (calculateMarginUsed Scenario.opened.1 Scenario.opened.2).2
  = if is_finite (Position.margin Scenario.opened.1
                    (longPosition Scenario.opened.2))
    then zero else S754_nan.
Proof.
  assert (Hh : hedgeType Scenario.opened.2 = FullHedge)
    by (vm_compute; reflexivity).
  assert (Heq : Position.margin Scenario.opened.1
                  (shortPosition Scenario.opened.2)
                = Position.margin Scenario.opened.1
                    (longPosition Scenario.opened.2))
    by (vm_compute; reflexivity).
  exact (fully_hedged_margin Scenario.opened.1 Scenario.opened.2 Hh Heq).
Defined.

Lemma known_closes_log_nothing_witness :
  ∃ s, run [OpenTrade "A" Long 0 1000 Scenario.price; CloseTrade "A"]
         (newInstrument "EUR/USD" "EUR" "USD" (of_Z 50) emptyWorld)
       = Some s ∧
       warnings s.1 = warnings emptyWorld.
Proof.
  apply (known_closes_log_nothing "EUR/USD" "EUR" "USD" (of_Z 50)
           emptyWorld).
  vm_compute. reflexivity.
Defined.

Lemma TradeByOrder_resolves_witness :
  ∃ s, run [OpenTrade "A" Long 0 1000 Scenario.price;
            OpenTrade "B" Short 1 1000 Scenario.price]
         (newInstrument "EUR/USD" "EUR" "USD" (of_Z 50) emptyWorld)
       = Some s ∧
    ∀ index,
      TradeByOrder index s.2 = EmptyString ∨
      is_Some (Trade_ (TradeByOrder index s.2) s.1 s.2).
Proof.
  apply (TradeByOrder_resolves "EUR/USD" "EUR" "USD" (of_Z 50) emptyWorld).
  vm_compute. reflexivity.
Defined.

End MoreOnScenario.
